(** * BERT-E2E-ABSA: the prediction driver of [bert_e2e_absa/work.py]

    A shallow embedding of the pure core of [work.py]: the label
    vocabularies of the three tagging schemas, the per-sentence candidate
    ranking ([np.max] over the sentiment columns, [sorted], and
    [get_unique_prediction_results]), the assembly of
    [Aspect_With_Sentiment] records, the gold-word alignment and the batch
    loop of [predict].

    Conventions.
    - Python exceptions are values of [exn]; fallible code lives in the
      error monad [result], written with stdpp's [x ← m; k].
    - Scores are finite floating-point numbers in the source.  Only their
      order is ever inspected ([np.max], [sorted], [>]), so they are
      embedded as rationals [Q]: every finite float is one, and the order
      is the same.
    - A Python [dict] read by key is a [gmap]; a dict literal whose
      [items()] are iterated keeps its insertion order as a list of pairs.
    - Lists indexed by a non-negative [int] use stdpp's lookup [!!], an
      out-of-range index raising [IndexError]. *)

From Stdlib Require Import ZArith QArith Qminmax Ascii Sorted.
From stdpp Require Import base list strings gmap.

Local Open Scope string_scope.
Local Open Scope list_scope.

(** ** Exceptions and the error monad *)

Inductive exn : Type :=
  | InvalidSchema (schema : string)
  | AssertionError
  | IndexError
  | KeyError
  | ValueError.

Inductive result (A : Type) : Type :=
  | Ok (a : A)
  | Raise (e : exn).
Arguments Ok {A} a.
Arguments Raise {A} e.

#[global] Instance result_ret : MRet result := @Ok.
#[global] Instance result_bind : MBind result := λ A B k m,
  match m with
  | Ok a => k a
  | Raise e => Raise e
  end.

Definition is_Ok {A} (m : result A) : Prop := ∃ a, m = Ok a.

(** ** Python building blocks *)

(** [l[i]] for a non-negative index. *)
Definition py_index {A} (l : list A) (i : nat) : result A :=
  match l !! i with
  | Some x => Ok x
  | None => Raise IndexError
  end.

(** [enumerate(l)] *)
Definition enumerate {A} (l : list A) : list (nat * A) := imap pair l.

(** [d[k]] on a dict. *)
Definition dict_get `{Countable K} {V} (d : gmap K V) (k : K) : result V :=
  match d !! k with
  | Some v => Ok v
  | None => Raise KeyError
  end.

(** Strict comparison of two scores, [a < b]. *)
Definition Qltb (a b : Q) : bool :=
  match Qcompare a b with
  | Lt => true
  | _ => false
  end.

(** [sorted(l, key=key, reverse=True)]: the stable sort by descending key.
    With [reverse=True] Python still keeps elements of equal key in their
    original order.  The result of a stable sort does not depend on the
    algorithm (lemma [stable_sort_unique]); it is realised here by stable
    insertion, every element going after the elements of strictly greater
    key and before the ones of equal or smaller key that followed it in
    the input. *)
Fixpoint insert_desc {A} (key : A → Q) (x : A) (l : list A) : list A :=
  match l with
  | [] => [x]
  | y :: l' =>
      if Qltb (key x) (key y) then y :: insert_desc key x l'
      else x :: y :: l'
  end.

Definition sorted_reverse {A} (key : A → Q) (l : list A) : list A :=
  foldr (insert_desc key) [] l.

(** ** Typings *)

(** [Predict_Tuple = Tuple[str, float]] *)
Definition Predict_Tuple : Type := string * Q.

Record Aspect_With_Sentiment : Type := {
  aspect : string;
  indices : Z * Z;
  sentiment : string;
}.

Record Predict_Result : Type := {
  unique_predictions : list (list Predict_Tuple);
  gold_targets : list (list string);
  aspects : list (list Aspect_With_Sentiment);
}.

(** ** The candidate ranker *)

(** [np.max(row)]: the reduction has no identity, an empty row raises
    [ValueError]. *)
Definition np_max (row : list Q) : result Q :=
  match row with
  | [] => Raise ValueError
  | x :: r => Ok (fold_left Qmax r x)
  end.

(** [np.max(np.array(probs[0])[1:len(words), 2:], axis=1)]: [probs0] is the
    score matrix [probs[0]], given by its rows, one per internal position;
    a row has one entry per label id, so the rows have the length of the
    second dimension of the matrix.  Slicing never raises; it truncates.
    The maximum along axis 1 has no identity: when the slice [2:] leaves
    no column, that is when the rows have at most two entries, [np.max]
    raises [ValueError], whether or not the slice [1:len(words)] keeps a
    row.  [probs[0]] has a row for every position of the padded sequence;
    the list without any row stands for a matrix of no row that has the
    label columns, on which the result is the empty list. *)
Definition max_values (words : list string) (probs0 : list (list Q))
    : result (list Q) :=
  if forallb (λ row, 2 <? length row)%nat probs0
  then mapM (λ row, np_max (drop 2 row))
            (take (length words - 1) (drop 1 probs0))
  else Raise ValueError.

(** [tuple_list] and [result] of [predict]:
    [sorted([(index, value) for index, value in enumerate(max_values)],
            key=lambda x: x[1], reverse=True)] *)
Definition ranked_indices (mv : list Q) : list (nat * Q) :=
  sorted_reverse snd (enumerate mv).

(** The test [word not in seen_words or score > seen_words[word]]. *)
Definition is_new_or_better (seen_words : gmap string Q)
    (word : string) (score : Q) : bool :=
  match seen_words !! word with
  | None => true
  | Some s => Qltb s score
  end.

(** One iteration of the inner loop of [get_unique_prediction_results],
    on the state [(seen_words, new_sublist)]. *)
Definition unique_step (st : gmap string Q * list Predict_Tuple)
    (p : Predict_Tuple) : gmap string Q * list Predict_Tuple :=
  let '(seen_words, new_sublist) := st in
  let '(word, score) := p in
  if is_new_or_better seen_words word score
  then (<[word := score]> seen_words, new_sublist ++ [(word, score)])
  else (seen_words, new_sublist).

(** The body of the outer loop: a fresh [seen_words] and [new_sublist]
    for every sublist. *)
Definition unique_sublist (sublist : list Predict_Tuple) : list Predict_Tuple :=
  (fold_left unique_step sublist (∅, [])).2.

(** [predictions_result[i]]:
    [[(words_list[i][j], score) for j, score in sublist]] *)
Definition name_sublist (words_list : list (list string)) (i : nat)
    (sublist : list (nat * Q)) : result (list Predict_Tuple) :=
  mapM (λ '(j, score),
          ws ← py_index words_list i;
          w ← py_index ws j;
          Ok (w, score)) sublist.

Definition get_unique_prediction_results
    (words_list : list (list string)) (target_list : list (list (nat * Q)))
    : result (list (list Predict_Tuple)) :=
  predictions_result ←
    mapM (λ '(i, sublist), name_sublist words_list i sublist)
         (enumerate target_list);
  Ok (unique_sublist <$> predictions_result).

(** The ranker of one sentence, as [predict] runs it: the ranked indices
    are stored, and named and deduplicated after the loop. *)
Definition rank (words : list string) (probs0 : list (list Q))
    : result (list Predict_Tuple) :=
  mv ← max_values words probs0;
  r ← get_unique_prediction_results [words] [ranked_indices mv];
  py_index r 0.

(** ** The schema registry *)

(** The dict literals of [predict], in insertion order; any other schema
    name raises. *)
Definition absa_label_vocab (tagging_schema : string)
    : result (list (string * Z)) :=
  if decide (tagging_schema = "BIEOS") then
    Ok [("O", 0); ("EQ", 1); ("B-POS", 2); ("I-POS", 3); ("E-POS", 4);
        ("S-POS", 5); ("B-NEG", 6); ("I-NEG", 7); ("E-NEG", 8); ("S-NEG", 9);
        ("B-NEU", 10); ("I-NEU", 11); ("E-NEU", 12); ("S-NEU", 13)]%Z
  else if decide (tagging_schema = "BIO") then
    Ok [("O", 0); ("EQ", 1); ("B-POS", 2); ("I-POS", 3);
        ("B-NEG", 4); ("I-NEG", 5); ("B-NEU", 6); ("I-NEU", 7)]%Z
  else if decide (tagging_schema = "OT") then
    Ok [("O", 0); ("EQ", 1); ("T-POS", 2); ("T-NEG", 3); ("T-NEU", 4)]%Z
  else Raise (InvalidSchema tagging_schema).

(** A loop with a fallible body: [for x in l: st = body(st, x)]. *)
Fixpoint for_each {S A} (body : S → A → result S) (l : list A) (st : S)
    : result S :=
  match l with
  | [] => Ok st
  | x :: l' => st' ← body st x; for_each body l' st'
  end.

(** [absa_id2tag], built by
    [for [key, _] in vocab.items(): v = vocab[key]; absa_id2tag[v] = key]. *)
Definition build_id2tag (vocab : list (string * Z)) : result (gmap Z string) :=
  for_each (λ (absa_id2tag : gmap Z string) '(key, _),
              v ← dict_get (list_to_map vocab : gmap string Z) key;
              Ok (<[v := key]> absa_id2tag))
           vocab ∅.

(** ** Aspects with sentiment *)

(** Python's clamping of one bound of a slice of a list of length [n]. *)
Definition slice_bound (n i : Z) : Z :=
  if (i <? 0)%Z then Z.max 0 (i + n) else Z.min i n.

(** [l[b:e]] *)
Definition py_slice {A} (l : list A) (b e : Z) : list A :=
  let n := Z.of_nat (length l) in
  let b' := slice_bound n b in
  let e' := slice_bound n e in
  take (Z.to_nat (e' - b')) (drop (Z.to_nat b') l).

(** One iteration of [for t in p_ts_sequence]. *)
Definition aspect_step (words : list string)
    (sentiments_temp : list Aspect_With_Sentiment) (t : Z * Z * string)
    : result (list Aspect_With_Sentiment) :=
  let '(beg, end_, sentiment) := t in
  let aspect := py_slice words beg (end_ + 1) in
  a0 ← py_index aspect 0;
  Ok (sentiments_temp ++
      [{| aspect := a0; indices := (beg, end_); sentiment := sentiment |}]).

Definition assemble_aspects (words : list string)
    (p_ts_sequence : list (Z * Z * string))
    : result (list Aspect_With_Sentiment) :=
  for_each (aspect_step words) p_ts_sequence [].

(** ** The gold aligner *)

(** One iteration of [for i, a in enumerate(labels.tolist()[0])]. *)
Definition gold_step (words : list string) (gold_labels_per_seq : list string)
    (ia : nat * Z) : result (list string) :=
  let '(i, a) := ia in
  if bool_decide (1 < a)%Z && bool_decide (0 < i < length words)%nat then
    w ← py_index words (i - 1);
    Ok (gold_labels_per_seq ++ [w])
  else Ok gold_labels_per_seq.

Definition gold_words (words : list string) (labels0 : list Z)
    : result (list string) :=
  for_each (gold_step words) (enumerate labels0) [].

(** ** The batch loop of [predict] *)

(** What one iteration of the loop reads: the words of the sentence
    ([total_words[idx]]), the positions of its labels among the internal
    positions ([evaluate_label_ids[idx]]), and from the model the predicted
    ids [preds[0]], the score matrix [logits[0]] and the gold ids
    [inputs['labels'][0]].  [inputs['labels']] is [batch[3]], the row of
    the tensor [all_label_ids] the dataset holds for the sentence: it is
    a tensor for every sentence, never [None]. *)
Record Sentence : Type := {
  words : list string;
  label_indices : list nat;
  preds0 : list Z;
  logits0 : list (list Q);
  labels0 : list Z;
}.

(** The lists [predict] accumulates. *)
Record Accum : Type := {
  target_list : list (list (nat * Q));
  words_list : list (list string);
  gold_target_list : list (list string);
  sentiment_output : list (list Aspect_With_Sentiment);
}.

Definition Accum_init : Accum :=
  {| target_list := []; words_list := [];
     gold_target_list := []; sentiment_output := [] |}.

(** [assert c] *)
Definition py_assert (c : bool) : result unit :=
  if c then Ok () else Raise AssertionError.

Section Predict.
(** [ot2bieos_ts], [bio2ot_ts] and [tag2ts] are imported from
    [bert_e2e_absa.seq_utils], which is not among the sources: [predict]
    takes them as parameters, and what is proved of it holds for any three
    such functions.  Module [seq_utils] below gives the ones of the
    specification. *)
Variable ot2bieos_ts : list string → list string.
Variable bio2ot_ts : list string → list string.
Variable tag2ts : list string → list (Z * Z * string).

(** [tagging_schema] is [args.tagging_schema]; [crf] says whether
    [model.tagger_config.absa_type] is ['crf'], in which case [probs]
    stays the empty list it was initialised to. *)
Variable tagging_schema : string.
Variable crf : bool.

Definition convert_tags (pred_tags : list string) : list string :=
  if decide (tagging_schema = "OT") then ot2bieos_ts pred_tags
  else if decide (tagging_schema = "BIO") then ot2bieos_ts (bio2ot_ts pred_tags)
  else pred_tags.

(** The body of [for batch in dataloader], in the order of the source.
    What it prints, and the arrays [gold_labels] it accumulates without
    returning them, are left out.  The test [inputs['labels'] is not None]
    holds in every iteration ([labels0] above), so the statements it
    guards are run for every sentence. *)
Definition predict_step (absa_id2tag : gmap Z string) (acc : Accum)
    (s : Sentence) : result Accum :=
  let probs : list (list (list Q)) := if crf then [] else [logits0 s] in
  let words := words s in
  pred_labels ← mapM (py_index (preds0 s)) (label_indices s);
  _ ← py_assert (bool_decide (length words = length pred_labels));
  probs0 ← py_index probs 0;
  max_values ← max_values words probs0;
  let result := ranked_indices max_values in
  pred_tags ← mapM (dict_get absa_id2tag) pred_labels;
  let pred_tags := convert_tags pred_tags in
  let p_ts_sequence := tag2ts pred_tags in
  sentiments_temp ← assemble_aspects words p_ts_sequence;
  gold_labels_per_seq ← gold_words words (labels0 s);
  Ok {| target_list := target_list acc ++ [result];
        words_list := words_list acc ++ [words];
        gold_target_list := gold_target_list acc ++ [gold_labels_per_seq];
        sentiment_output := sentiment_output acc ++ [sentiments_temp] |}.

Definition predict (batch : list Sentence) : result Predict_Result :=
  absa_label_vocab ← absa_label_vocab tagging_schema;
  absa_id2tag ← build_id2tag absa_label_vocab;
  acc ← for_each (predict_step absa_id2tag) batch Accum_init;
  unique_predictions ←
    get_unique_prediction_results (words_list acc) (target_list acc);
  Ok {| gold_targets := gold_target_list acc;
        unique_predictions := unique_predictions;
        aspects := sentiment_output acc |}.
End Predict.

(** ** The tag transducers of [seq_utils] *)

Module seq_utils.

(** Modelled from the spec: the tags of the three vocabularies are [O],
    [EQ] and [P-x], a position letter [P] among [T], [B], [I], [E], [S]
    followed by a polarity [x]; anything else is read as outside. *)
Inductive tag_kind : Type :=
  | Target (x : string)
  | Begin (x : string)
  | Inside (x : string)
  | End_ (x : string)
  | Single (x : string)
  | Outside.

Definition parse_tag (t : string) : tag_kind :=
  match t with
  | String c (String "-"%char x) =>
      if decide (c = "T"%char) then Target x
      else if decide (c = "B"%char) then Begin x
      else if decide (c = "I"%char) then Inside x
      else if decide (c = "E"%char) then End_ x
      else if decide (c = "S"%char) then Single x
      else Outside
  | _ => Outside
  end.

(** Modelled from the spec: [bio2ot_ts] (not among the sources) rewrites
    every [B-x] and [I-x] into [T-x] and leaves [O] and [EQ] unchanged. *)
Definition bio2ot_ts (tags : list string) : list string :=
  (λ t, match parse_tag t with
        | Begin x | Inside x => "T-" +:+ x
        | _ => t
        end) <$> tags.

(** Whether a neighbour is a [T-x] of the polarity [x]. *)
Definition is_target (x : string) (t : option string) : bool :=
  match t with
  | Some t =>
      match parse_tag t with
      | Target y => bool_decide (x = y)
      | _ => false
      end
  | None => false
  end.

(** Modelled from the spec: [ot2bieos_ts] (not among the sources) rewrites
    each [T-x] by its neighbours: [S-x] when neither is [T-x], [B-x] when
    only the next one is, [E-x] when only the previous one is, [I-x] when
    both are; [O] and [EQ] pass through. *)
Fixpoint ot2bieos_from (prev : option string) (tags : list string)
    : list string :=
  match tags with
  | [] => []
  | t :: rest =>
      match parse_tag t with
      | Target x =>
          ((if is_target x prev
            then if is_target x (head rest) then "I-" else "E-"
            else if is_target x (head rest) then "B-" else "S-") +:+ x)
      | _ => t
      end :: ot2bieos_from (Some t) rest
  end.

Definition ot2bieos_ts (tags : list string) : list string :=
  ot2bieos_from None tags.

(** Modelled from the spec: [tag2ts] (not among the sources) is the span
    extractor of the spec, a scan with the states [OUTSIDE] ([None]) and
    [IN_SPAN(begin, polarity)]; a span still open at the end is flushed. *)
Fixpoint tag2ts_from (i : Z) (st : option (Z * string)) (tags : list string)
    : list (Z * Z * string) :=
  match tags with
  | [] =>
      match st with
      | Some (beg, y) => [(beg, i - 1, y)%Z]
      | None => []
      end
  | t :: rest =>
      match parse_tag t, st with
      | Single x, _ => (i, i, x) :: tag2ts_from (i + 1) None rest
      | Begin x, None => tag2ts_from (i + 1) (Some (i, x)) rest
      | Begin x, Some (beg, y) =>
          (beg, i - 1, y)%Z :: tag2ts_from (i + 1) (Some (i, x)) rest
      | Inside _, _ => tag2ts_from (i + 1) st rest
      | End_ x, Some (beg, _) => (beg, i, x) :: tag2ts_from (i + 1) None rest
      | End_ x, None => (i, i, x) :: tag2ts_from (i + 1) None rest
      | (Outside | Target _), Some (beg, y) =>
          (beg, i - 1, y)%Z :: tag2ts_from (i + 1) None rest
      | (Outside | Target _), None => tag2ts_from (i + 1) None rest
      end
  end.

Definition tag2ts (tags : list string) : list (Z * Z * string) :=
  tag2ts_from 0 None tags.

End seq_utils.

(** [predict] over the transducers modelled from the specification. *)
Definition predict_absa : string → bool → list Sentence → result Predict_Result :=
  predict seq_utils.ot2bieos_ts seq_utils.bio2ot_ts seq_utils.tag2ts.

(** ** Derived forms used in the statements *)

(** Descending order of keys, and of the scores of candidates. *)
Definition key_desc {A} (key : A → Q) (a b : A) : Prop := (key b <= key a)%Q.

Definition desc {A} : relation (A * Q) := key_desc snd.

(** [seen_words] holds, for each term, a score no smaller than any score
    the term still has in the rest of the sublist. *)
Definition dominates (seen : gmap string Q) (l : list Predict_Tuple) : Prop :=
  ∀ w s s', seen !! w = Some s → (w, s') ∈ l → (s' <= s)%Q.

(** The inner loop of [get_unique_prediction_results] as a recursion on
    the rest of the sublist, [seen_words] being threaded; it is the list
    [new_sublist] gains from there on (lemma [unique_fold]). *)
Fixpoint unique_from (seen_words : gmap string Q) (sublist : list Predict_Tuple)
    : list Predict_Tuple :=
  match sublist with
  | [] => []
  | (word, score) :: rest =>
      if is_new_or_better seen_words word score
      then (word, score) :: unique_from (<[word := score]> seen_words) rest
      else unique_from seen_words rest
  end.

(** The candidate of a ranked index: the term at that index of the
    sentence, with the score. *)
Definition name_of (words : list string) (p : nat * Q) : Predict_Tuple :=
  (words !!! p.1, p.2).

(** Sorting, then deduplicating, a list of candidates (term, score). *)
Definition rank_candidates (cands : list Predict_Tuple) : list Predict_Tuple :=
  unique_sublist (sorted_reverse snd cands).

(** The gold alignment in the words of the specification: the positions
    [i] with [1 ≤ i < len(tokens)] whose gold label id exceeds 1, in
    increasing order, and for each of them the token before it. *)
Definition gold_positions (words : list string) (labels0 : list Z) : list nat :=
  List.filter (λ i, match labels0 !! i with
                    | Some a => bool_decide (1 < a)%Z
                    | None => false
                    end)
              (seq 1 (length words - 1)).

Definition aligned_gold_words (words : list string) (labels0 : list Z)
    : list string :=
  (λ i, words !!! (i - 1)%nat) <$> gold_positions words labels0.

(** The test of [gold_step] at position [i] of the label row. *)
Definition gold_test (words : list string) (labels0 : list Z) (i : nat) : bool :=
  match labels0 !! i with
  | Some a => bool_decide (1 < a)%Z && bool_decide (0 < i < length words)%nat
  | None => false
  end.

(** The record assembled for a span whose [begin] is a position of the
    sentence. *)
Definition aspect_of (words : list string) (t : Z * Z * string)
    : Aspect_With_Sentiment :=
  {| aspect := words !!! Z.to_nat t.1.1;
     indices := (t.1.1, t.1.2);
     sentiment := t.2 |}.

(** The invariant of a Sentiment Span: [0 ≤ begin ≤ end < len(sentence)]. *)
Definition span_in_bounds (words : list string) (t : Z * Z * string) : Prop :=
  (0 ≤ t.1.1 ≤ t.1.2 ∧ t.1.2 < Z.of_nat (length words))%Z.

(** The three schema names [predict] accepts. *)
Definition supported (tagging_schema : string) : Prop :=
  tagging_schema = "OT" ∨ tagging_schema = "BIO" ∨ tagging_schema = "BIEOS".

(** The entry a sentence adds to [gold_target_list]: its aligned gold
    words. *)
Definition gold_entry (s : Sentence) : list string :=
  aligned_gold_words (words s) (labels0 s).

(** A sentence without gold labels: no label id above 1 at a position the
    aligner reads. *)
Definition no_gold_labels (s : Sentence) : Prop :=
  ∀ i a, (1 ≤ i < length (words s))%nat → labels0 s !! i = Some a → (a ≤ 1)%Z.

(** The tag vocabularies in the words of the specification: [O], [EQ]
    and, for each polarity, the tags [P-x] of the position letters [P] of
    the schema ([T] for OT, [B] and [I] for BIO, [B], [I], [E] and [S] for
    BIEOS). *)
Definition polarities : list string := ["POS"; "NEG"; "NEU"].

Definition position_letters (tagging_schema : string) : list string :=
  if decide (tagging_schema = "OT") then ["T"]
  else if decide (tagging_schema = "BIO") then ["B"; "I"]
  else if decide (tagging_schema = "BIEOS") then ["B"; "I"; "E"; "S"]
  else [].

Definition schema_tags (tagging_schema : string) : list string :=
  ["O"; "EQ"]
  ++ (x ← polarities; (λ P, P +:+ "-" +:+ x) <$> position_letters tagging_schema).

(** A computation that does not raise the schema error. *)
Definition no_schema_error {A} (m : result A) : Prop :=
  ∀ schema, m ≠ Raise (InvalidSchema schema).

(** A sentence the loop of [predict] processes without raising, for a
    vocabulary of [n] labels: as many predicted tags as tokens, label
    positions within the predictions, predicted ids within the
    vocabulary, and a sentiment column in every score row. *)
Record well_formed (n : nat) (s : Sentence) : Prop := {
  wf_length : length (words s) = length (label_indices s);
  wf_positions : Forall (λ i, i < length (preds0 s))%nat (label_indices s);
  wf_preds : Forall (λ p, 0 ≤ p < Z.of_nat n)%Z (preds0 s);
  wf_columns : Forall (λ row, 2 < length row)%nat (logits0 s);
}.

(** The aspects of one sentence, as [predict_step] computes them. *)
Definition sentence_aspects (ot2bieos_ts bio2ot_ts : list string → list string)
    (tag2ts : list string → list (Z * Z * string)) (tagging_schema : string)
    (absa_id2tag : gmap Z string) (s : Sentence)
    : result (list Aspect_With_Sentiment) :=
  pred_labels ← mapM (py_index (preds0 s)) (label_indices s);
  pred_tags ← mapM (dict_get absa_id2tag) pred_labels;
  assemble_aspects (words s)
    (tag2ts (convert_tags ot2bieos_ts bio2ot_ts tagging_schema pred_tags)).

(** Sublist [i] of [target_list] can be named: it is empty (then
    [words_list[i]] is not read), or sentence [i] exists and every index
    of the sublist is an index of its words. *)
Definition nameable (words_list : list (list string)) (i : nat)
    (sublist : list (nat * Q)) : Prop :=
  sublist = [] ∨ ∃ ws, words_list !! i = Some ws
                       ∧ Forall (λ p, p.1 < length ws)%nat sublist.

(** The lists of two runs of the loop, one after the other. *)
Definition Accum_app (a d : Accum) : Accum :=
  {| target_list := target_list a ++ target_list d;
     words_list := words_list a ++ words_list d;
     gold_target_list := gold_target_list a ++ gold_target_list d;
     sentiment_output := sentiment_output a ++ sentiment_output d |}.

(** The results of two batches, one after the other. *)
Definition Predict_Result_app (r1 r2 : Predict_Result) : Predict_Result :=
  {| unique_predictions := unique_predictions r1 ++ unique_predictions r2;
     gold_targets := gold_targets r1 ++ gold_targets r2;
     aspects := aspects r1 ++ aspects r2 |}.

(** What the loop of [predict] needs of a sentence, for a vocabulary of
    [n] labels: as many label positions as tokens, every label position a
    position of the predictions holding an id of the vocabulary, and a
    score matrix of more than two columns (a sentiment column in every
    row). *)
Definition processable (n : nat) (s : Sentence) : Prop :=
  length (words s) = length (label_indices s)
  ∧ Forall (λ i, ∃ p, preds0 s !! i = Some p ∧ (0 ≤ p < Z.of_nat n)%Z)
           (label_indices s)
  ∧ Forall (λ row, 2 < length row)%nat (logits0 s).

(** What the assembly of an aspect needs of a span of non-negative
    indices: [begin] is a position of the sentence and does not exceed
    [end]. *)
Definition span_usable (words : list string) (t : Z * Z * string) : Prop :=
  (t.1.1 < Z.of_nat (length words) ∧ t.1.1 ≤ t.1.2)%Z.

(** ** Strings of [load_and_cache_examples]

    A Python [str] is embedded as the string of the bytes of its UTF-8
    encoding; the separators below are ASCII characters, whose byte
    occurs in an encoding only as that character. *)

(** [s.split(sep)] for a separator of one character: the pieces between
    the separators, empty pieces included; never the empty list. *)
Fixpoint py_split (sep : ascii) (s : string) : list string :=
  match s with
  | EmptyString => [""]
  | String c s' =>
      if decide (c = sep) then "" :: py_split sep s'
      else match py_split sep s' with
           | w :: ws => String c w :: ws
           | [] => [String c ""]
           end
  end.

(** [sep.join(l)] *)
Definition py_join (sep : string) (l : list string) : string :=
  String.concat sep l.

(** [total_words]: [text.split(' ')] for the text of every example. *)
Definition total_words (texts : list string) : list (list string) :=
  py_split " " <$> texts.

(** [l.pop()] read for its value. *)
Definition py_pop {A} (l : list A) : result A :=
  match last l with
  | Some x => Ok x
  | None => Raise IndexError
  end.

(** [list(filter(None, model_name_or_path.split('/'))).pop()] *)
Definition model_short_name (model_name_or_path : string) : result string :=
  py_pop (filter (λ w, w ≠ "") (py_split "/" model_name_or_path)).

(** The characters of a string. *)
Definition chars (s : string) : list ascii := String.list_ascii_of_string s.

(** The string of [n] slashes. *)
Definition slashes (n : nat) : string :=
  String.string_of_list_ascii (replicate n "/"%char).

(** ** Example data *)

Definition sentence_ex : Sentence :=
  {| words := ["great"; "food"; "today"];
     label_indices := [1; 2; 3]%nat;
     preds0 := [0; 2; 4; 0; 0]%Z;
     logits0 := [[9; 0; 0; 0; 0; 0; 0; 0; 0; 0; 0; 0; 0; 0];
                 [0; 0; 8#10; 0; 0; 0; 0; 0; 0; 0; 0; 0; 0; 0];
                 [0; 0; 0; 0; 6#10; 0; 0; 0; 0; 0; 0; 0; 0; 0];
                 [7; 0; 0; 0; 0; 0; 0; 0; 0; 0; 0; 0; 0; 1#10];
                 [9; 0; 0; 0; 0; 0; 0; 0; 0; 0; 0; 0; 0; 0]]%Q;
     labels0 := [0; 2; 4; 0; 0]%Z |}.

(** [sentence_ex] with a label row that marks no token: every id is that
    of [O]. *)
Definition sentence_plain : Sentence :=
  {| words := words sentence_ex; label_indices := label_indices sentence_ex;
     preds0 := preds0 sentence_ex; logits0 := logits0 sentence_ex;
     labels0 := [0; 0; 0; 0; 0]%Z |}.

(** A prediction of the BIEOS id 13 ([S-NEU]), foreign to the OT and BIO
    vocabularies. *)
Definition sentence_foreign : Sentence :=
  {| words := ["fine"; "wine"];
     label_indices := [1; 2]%nat;
     preds0 := [0; 13; 0; 0]%Z;
     logits0 := [[9; 0; 0; 0; 0; 0; 0; 0; 0; 0; 0; 0; 0; 0];
                 [0; 0; 1#10; 0; 0; 0; 0; 0; 0; 0; 0; 0; 0; 8#10];
                 [7; 0; 0; 0; 2#10; 0; 0; 0; 0; 0; 0; 0; 0; 0];
                 [9; 0; 0; 0; 0; 0; 0; 0; 0; 0; 0; 0; 0; 0]]%Q;
     labels0 := [0; 0; 0; 0]%Z |}.

(** One word, and a score matrix of two columns: the slice
    [1:len(words), 2:] has neither a row nor a column. *)
Definition sentence_solo : Sentence :=
  {| words := ["solo"];
     label_indices := [1]%nat;
     preds0 := [0; 0; 0]%Z;
     logits0 := [[1; 0]; [1; 0]; [1; 0]]%Q;
     labels0 := [0; 0; 0]%Z |}.

(** Three words against two predicted tags. *)
Definition sentence_mismatch : Sentence :=
  {| words := ["nice"; "place"; "!"];
     label_indices := [1; 2]%nat;
     preds0 := preds0 sentence_ex;
     logits0 := logits0 sentence_ex;
     labels0 := [0; 5; 0; 0; 0]%Z |}.

(** ** Examples *)

Example rank_ex :
  rank ["good"; "food"; "good"; "."]
       [[0; 0; 0; 0; 0]; [5; 5; 9#10; 1#10; 2#10]; [5; 5; 1#10; 4#10; 2#10];
        [5; 5; 1#10; 2#10; 7#10]; [5; 5; 1; 1; 1]; [5; 5; 1; 1; 1]]%Q
  = Ok [("good", 9#10); ("food", 4#10)]%Q.
Proof. vm_compute. reflexivity. Qed.

Example ot2bieos_ex :
  seq_utils.ot2bieos_ts ["T-POS"; "T-POS"; "O"] = ["B-POS"; "E-POS"; "O"]
  ∧ seq_utils.tag2ts ["B-POS"; "E-POS"; "O"] = [(0, 1, "POS")]%Z.
Proof. split; reflexivity. Qed.

Example bio_path_ex :
  seq_utils.ot2bieos_ts (seq_utils.bio2ot_ts ["B-NEG"; "I-NEG"; "O"; "I-NEU"])
  = ["B-NEG"; "E-NEG"; "O"; "S-NEU"]
  ∧ seq_utils.tag2ts ["B-NEG"; "E-NEG"; "O"; "S-NEU"]
    = [(0, 1, "NEG"); (3, 3, "NEU")]%Z.
Proof. split; reflexivity. Qed.

Example flush_ex :
  seq_utils.tag2ts ["O"; "B-POS"; "I-POS"] = [(1, 2, "POS")]%Z.
Proof. reflexivity. Qed.

Example predict_ex :
  predict_absa "BIEOS" false [sentence_ex]
  = Ok {| unique_predictions := [[("great", 8#10); ("food", 6#10)]]%Q;
          gold_targets := [["great"; "food"]];
          aspects := [[ {| aspect := "great"; indices := (0, 1)%Z;
                           sentiment := "POS" |} ]] |}.
Proof. vm_compute. reflexivity. Qed.

(** ** The error monad *)

Lemma bind_Ok {A B} (m : result A) (k : A → result B) (b : B) :
  (m ≫= k) = Ok b ↔ ∃ a, m = Ok a ∧ k a = Ok b.
Proof.
  destruct m as [a|e]; simpl; split.
  - intros H. by exists a.
  - intros (a' & Heq & H). by simplify_eq.
  - done.
  - intros (a' & Heq & _). done.
Qed.

Lemma bind_Raise {A B} (m : result A) (k : A → result B) (e : exn) :
  (m ≫= k) = Raise e ↔ m = Raise e ∨ ∃ a, m = Ok a ∧ k a = Raise e.
Proof.
  destruct m as [a|e']; simpl; split.
  - intros H. right. by exists a.
  - intros [H|(a' & Heq & H)]; by simplify_eq.
  - intros [= ->]. by left.
  - intros [[= ->]|(a' & Heq & _)]; done.
Qed.

Lemma py_index_Ok {A} (l : list A) (i : nat) (x : A) :
  py_index l i = Ok x ↔ l !! i = Some x.
Proof. unfold py_index. destruct (l !! i); split; congruence. Qed.

Lemma py_assert_Ok (c : bool) (u : unit) : py_assert c = Ok u ↔ c = true.
Proof. destruct c, u; simpl; split; congruence. Qed.

Section mapM_result.
Context {A B : Type} (f : A → result B).

Lemma mapM_nil : mapM f [] = Ok [].
Proof. reflexivity. Qed.

Lemma mapM_cons (x : A) (l : list A) :
  mapM f (x :: l) = y ← f x; k ← mapM f l; Ok (y :: k).
Proof. reflexivity. Qed.

Lemma mapM_Ok (l : list A) (k : list B) :
  mapM f l = Ok k ↔ Forall2 (λ x y, f x = Ok y) l k.
Proof.
  revert k. induction l as [|x l IH]; intros k.
  - rewrite mapM_nil. split; [intros [= <-]; constructor|by inversion 1].
  - rewrite mapM_cons, bind_Ok. split.
    + intros (y & Hy & Hk). apply bind_Ok in Hk as (k' & Hk' & [= <-]).
      constructor; [done|]. by apply IH.
    + inversion 1 as [|? y ? k' Hy Hk']; subst.
      exists y. split; [done|]. apply bind_Ok. exists k'.
      split; [by apply IH|done].
Qed.

Lemma mapM_length (l : list A) (k : list B) :
  mapM f l = Ok k → length k = length l.
Proof. rewrite mapM_Ok. intros H. symmetry. by eapply Forall2_length. Qed.

Lemma mapM_fmap (g : A → B) (l : list A) :
  Forall (λ x, f x = Ok (g x)) l → mapM f l = Ok (g <$> l).
Proof.
  intros H. apply mapM_Ok. induction H; constructor; auto.
Qed.

Lemma mapM_is_Ok (l : list A) :
  Forall (λ x, is_Ok (f x)) l → is_Ok (mapM f l).
Proof.
  induction 1 as [|x l [y Hy] _ [k Hk]]; [by eexists|].
  exists (y :: k). rewrite mapM_cons, Hy. simpl. by rewrite Hk.
Qed.
End mapM_result.

Lemma for_each_app {S A} (body : S → A → result S) (l1 l2 : list A) (st : S) :
  for_each body (l1 ++ l2) st = st' ← for_each body l1 st; for_each body l2 st'.
Proof.
  revert st. induction l1 as [|x l1 IH]; intros st; simpl; [done|].
  destruct (body st x) as [st'|e]; simpl; [apply IH|done].
Qed.

(** ** Scores *)

Lemma Qltb_lt (a b : Q) : Qltb a b = true ↔ (a < b)%Q.
Proof. unfold Qltb. rewrite Qlt_alt. destruct (a ?= b)%Q; split; congruence. Qed.

Lemma Qltb_ge (a b : Q) : Qltb a b = false ↔ (b <= a)%Q.
Proof.
  rewrite <- not_true_iff_false, Qltb_lt. split.
  - apply Qnot_lt_le.
  - intros H1 H2. by apply (Qlt_irrefl a), (Qlt_le_trans _ b).
Qed.

(** ** The stable descending sort *)

Section sorting.
Context {A : Type} (key : A → Q).

Lemma insert_desc_perm (x : A) (l : list A) : insert_desc key x l ≡ₚ x :: l.
Proof.
  induction l as [|y l IH]; simpl; [done|].
  destruct (Qltb (key x) (key y)); [|done].
  rewrite IH. apply Permutation_swap.
Qed.

Lemma sorted_reverse_perm (l : list A) : sorted_reverse key l ≡ₚ l.
Proof.
  induction l as [|x l IH]; simpl; [done|].
  unfold sorted_reverse in IH. by rewrite insert_desc_perm, IH.
Qed.

Lemma insert_desc_sorted (x : A) (l : list A) :
  StronglySorted (key_desc key) l → StronglySorted (key_desc key) (insert_desc key x l).
Proof.
  induction 1 as [|y l Hl IH Hy]; simpl.
  - repeat constructor.
  - destruct (Qltb (key x) (key y)) eqn:Hxy.
    + constructor; [done|]. rewrite insert_desc_perm. constructor; [|done].
      apply Qltb_lt in Hxy. by apply Qlt_le_weak.
    + apply Qltb_ge in Hxy. constructor; [by constructor|].
      constructor; [done|]. eapply Forall_impl; [exact Hy|].
      intros z Hz. unfold key_desc in *. by apply (Qle_trans _ (key y)).
Qed.

Lemma sorted_reverse_sorted (l : list A) :
  StronglySorted (key_desc key) (sorted_reverse key l).
Proof.
  induction l as [|x l IH]; simpl; [constructor|].
  by apply insert_desc_sorted.
Qed.

(** Stability: the elements of any one key keep their relative order
    (keys compared as numbers, [==]). *)
Lemma insert_desc_stable (k : Q) (x : A) (l : list A) :
  StronglySorted (key_desc key) l →
  List.filter (λ y, Qeq_bool (key y) k) (insert_desc key x l)
  = List.filter (λ y, Qeq_bool (key y) k) (x :: l).
Proof.
  induction 1 as [|y l Hl IH Hy]; [done|].
  cbn [insert_desc]. destruct (Qltb (key x) (key y)) eqn:Hxy; [|done].
  apply Qltb_lt in Hxy. cbn [List.filter] in *.
  destruct (Qeq_bool (key y) k) eqn:Hyk, (Qeq_bool (key x) k) eqn:Hxk;
    rewrite IH; try done.
  apply Qeq_bool_iff in Hyk, Hxk. rewrite Hyk, Hxk in Hxy.
  by apply Qlt_irrefl in Hxy.
Qed.

Lemma sorted_reverse_stable (k : Q) (l : list A) :
  List.filter (λ y, Qeq_bool (key y) k) (sorted_reverse key l)
  = List.filter (λ y, Qeq_bool (key y) k) l.
Proof.
  induction l as [|x l IH]; [done|].
  cbn [sorted_reverse foldr]. rewrite insert_desc_stable
    by apply sorted_reverse_sorted.
  cbn [List.filter]. unfold sorted_reverse in IH. by rewrite IH.
Qed.
(** Two lists in descending order that agree, key by key, on the
    elements of that key and their order are the same list: the result of
    a stable sort is determined by its input, whatever the algorithm. *)
Lemma sorted_by_filters (l1 l2 : list A) :
  StronglySorted (key_desc key) l1 → StronglySorted (key_desc key) l2 →
  (∀ k, List.filter (λ y, Qeq_bool (key y) k) l1
        = List.filter (λ y, Qeq_bool (key y) k) l2) →
  l1 = l2.
Proof.
  intros H1. revert l2. induction H1 as [|x t1 Ht1 IH Hx]; intros l2 H2 Hf.
  - destruct l2 as [|y t2]; [done|]. specialize (Hf (key y)). cbn in Hf.
    by rewrite (proj2 (Qeq_bool_iff _ _) (Qeq_refl _)) in Hf.
  - destruct l2 as [|y t2].
    { specialize (Hf (key x)). cbn in Hf.
      by rewrite (proj2 (Qeq_bool_iff _ _) (Qeq_refl _)) in Hf. }
    apply StronglySorted_inv in H2 as [Ht2 Hy].
    assert (key x == key y)%Q as Hxy.
    { apply Qle_antisym.
      - assert (In x (y :: t2)) as [->|Hin].
        { eapply (proj1 (filter_In _ _ _)). rewrite <- (Hf (key x)). cbn.
          rewrite (proj2 (Qeq_bool_iff _ _) (Qeq_refl _)). by left. }
        + apply Qle_refl.
        + rewrite Forall_forall in Hy. by apply Hy, list_elem_of_In.
      - assert (In y (x :: t1)) as [->|Hin].
        { eapply (proj1 (filter_In _ _ _)). rewrite (Hf (key y)). cbn.
          rewrite (proj2 (Qeq_bool_iff _ _) (Qeq_refl _)). by left. }
        + apply Qle_refl.
        + rewrite Forall_forall in Hx. by apply Hx, list_elem_of_In. }
    assert (x = y) as <-.
    { specialize (Hf (key x)). cbn in Hf.
      rewrite (proj2 (Qeq_bool_iff _ _) (Qeq_refl _)) in Hf.
      rewrite (proj2 (Qeq_bool_iff (key y) (key x))) in Hf by (by symmetry).
      congruence. }
    f_equal. apply IH; [done|]. intros k. specialize (Hf k). cbn in Hf.
    destruct (Qeq_bool (key x) k); congruence.
Qed.

Lemma stable_sort_unique (l l' : list A) :
  StronglySorted (key_desc key) l' →
  (∀ k, List.filter (λ y, Qeq_bool (key y) k) l'
        = List.filter (λ y, Qeq_bool (key y) k) l) →
  l' = sorted_reverse key l.
Proof.
  intros Hs Hf. apply sorted_by_filters; [done|apply sorted_reverse_sorted|].
  intros k. by rewrite sorted_reverse_stable.
Qed.
End sorting.

Lemma insert_desc_fmap {A B} (f : A → B) (keyA : A → Q) (keyB : B → Q)
    (x : A) (l : list A) :
  (∀ a, keyB (f a) = keyA a) →
  insert_desc keyB (f x) (f <$> l) = f <$> insert_desc keyA x l.
Proof.
  intros Hkey. induction l as [|y l IH]; [done|].
  cbn [insert_desc fmap list_fmap]. rewrite !Hkey.
  destruct (Qltb (keyA x) (keyA y)); [|done].
  cbn [fmap list_fmap]. f_equal. apply IH.
Qed.

Lemma sorted_reverse_fmap {A B} (f : A → B) (keyA : A → Q) (keyB : B → Q)
    (l : list A) :
  (∀ a, keyB (f a) = keyA a) →
  sorted_reverse keyB (f <$> l) = f <$> sorted_reverse keyA l.
Proof.
  intros Hkey. induction l as [|x l IH]; [done|].
  cbn [sorted_reverse foldr fmap list_fmap].
  unfold sorted_reverse in IH. rewrite IH. by apply insert_desc_fmap.
Qed.

(** ** The deduplication loop *)

Lemma unique_fold (seen : gmap string Q) (acc l : list Predict_Tuple) :
  (fold_left unique_step l (seen, acc)).2 = acc ++ unique_from seen l.
Proof.
  revert seen acc. induction l as [|[w s] l IH]; intros seen acc.
  - simpl. by rewrite app_nil_r.
  - cbn [fold_left unique_from unique_step].
    destruct (is_new_or_better seen w s); rewrite IH; [|done].
    by rewrite <- app_assoc.
Qed.

Lemma unique_sublist_from (l : list Predict_Tuple) :
  unique_sublist l = unique_from ∅ l.
Proof. unfold unique_sublist. by rewrite unique_fold. Qed.

Lemma unique_from_elem (seen : gmap string Q) (l : list Predict_Tuple)
    (p : Predict_Tuple) :
  p ∈ unique_from seen l → p ∈ l.
Proof.
  revert seen. induction l as [|[w s] l IH]; intros seen; [done|].
  cbn [unique_from]. destruct (is_new_or_better seen w s).
  - rewrite !elem_of_cons. intros [->|H]; [by left|right; eauto].
  - intros H. apply elem_of_cons. right; eauto.
Qed.

(** The first occurrence of a term not yet seen is always kept. *)
Lemma unique_from_cover (seen : gmap string Q) (l : list Predict_Tuple)
    (w : string) (s : Q) :
  (w, s) ∈ l → seen !! w = None → w ∈ (unique_from seen l).*1.
Proof.
  revert seen. induction l as [|[w0 s0] l IH]; intros seen Hin Hw.
  { by apply elem_of_nil in Hin. }
  cbn [unique_from]. destruct (decide (w0 = w)) as [->|Hne].
  - unfold is_new_or_better. rewrite Hw. cbn. apply elem_of_cons. by left.
  - apply elem_of_cons in Hin as [[= ? ?]|Hin]; [congruence|].
    destruct (is_new_or_better seen w0 s0).
    + cbn. apply elem_of_cons. right. apply IH; [done|].
      by rewrite lookup_insert_ne.
    + by apply IH.
Qed.

(** Running the loop on what it produced changes nothing. *)
Lemma unique_from_idemp (seen : gmap string Q) (l : list Predict_Tuple) :
  unique_from seen (unique_from seen l) = unique_from seen l.
Proof.
  revert seen. induction l as [|[w s] l IH]; intros seen; [done|].
  cbn [unique_from]. destruct (is_new_or_better seen w s) eqn:Hk; [|apply IH].
  cbn [unique_from]. rewrite Hk. f_equal. apply IH.
Qed.

Section sorted_input.
Lemma dominates_empty (l : list Predict_Tuple) : dominates ∅ l.
Proof. intros w s s' H. by rewrite lookup_empty in H. Qed.

Lemma dominates_tail (seen : gmap string Q) (p : Predict_Tuple)
    (l : list Predict_Tuple) :
  dominates seen (p :: l) → dominates seen l.
Proof. intros H w s s' Hw Hin. eapply H; [done|]. by apply elem_of_cons; right. Qed.

Lemma dominates_insert (seen : gmap string Q) (w : string) (s : Q)
    (l : list Predict_Tuple) :
  StronglySorted desc ((w, s) :: l) → dominates seen ((w, s) :: l) →
  dominates (<[w := s]> seen) l.
Proof.
  intros Hs Hd w' s1 s2 Hw' Hin.
  apply StronglySorted_inv in Hs as [_ Hall].
  destruct (decide (w = w')) as [->|Hne].
  - rewrite lookup_insert_eq in Hw'. injection Hw' as <-.
    rewrite Forall_forall in Hall. by apply (Hall (w', s2)).
  - rewrite lookup_insert_ne in Hw' by done.
    eapply Hd; [done|]. by apply elem_of_cons; right.
Qed.

(** On a sublist sorted by descending score a later occurrence of a
    term never beats the recorded one: the loop keeps an entry exactly
    when its term is new. *)
Lemma is_new_or_better_sorted (seen : gmap string Q) (w : string) (s : Q)
    (l : list Predict_Tuple) :
  dominates seen ((w, s) :: l) →
  is_new_or_better seen w s = bool_decide (seen !! w = None).
Proof.
  intros Hd. unfold is_new_or_better.
  destruct (seen !! w) as [s0|] eqn:Hw; [|done].
  rewrite bool_decide_eq_false_2 by done.
  apply Qltb_ge. eapply Hd; [done|]. by apply elem_of_cons; left.
Qed.

Lemma unique_from_fresh (seen : gmap string Q) (l : list Predict_Tuple)
    (w : string) :
  StronglySorted desc l → dominates seen l →
  w ∈ (unique_from seen l).*1 → seen !! w = None.
Proof.
  revert seen. induction l as [|[w0 s0] l IH]; intros seen Hs Hd.
  { cbn. by intros ?%elem_of_nil. }
  cbn [unique_from]. rewrite (is_new_or_better_sorted _ _ _ l) by done.
  pose proof (StronglySorted_inv Hs) as [Hs' _].
  case_bool_decide as Hw0.
  - cbn. rewrite elem_of_cons. intros [->|Hin]; [done|].
    apply IH in Hin; [|done|by apply dominates_insert].
    destruct (decide (w0 = w)) as [->|Hne].
    + by rewrite lookup_insert_eq in Hin.
    + by rewrite lookup_insert_ne in Hin.
  - apply IH; [done|by eapply dominates_tail].
Qed.

Lemma unique_from_NoDup (seen : gmap string Q) (l : list Predict_Tuple) :
  StronglySorted desc l → dominates seen l →
  NoDup (unique_from seen l).*1.
Proof.
  revert seen. induction l as [|[w0 s0] l IH]; intros seen Hs Hd.
  { constructor. }
  cbn [unique_from]. rewrite (is_new_or_better_sorted _ _ _ l) by done.
  pose proof (StronglySorted_inv Hs) as [Hs' _].
  case_bool_decide as Hw0.
  - cbn. constructor.
    + intros Hin. apply unique_from_fresh in Hin;
        [|done|by apply dominates_insert].
      by rewrite lookup_insert_eq in Hin.
    + apply IH; [done|by apply dominates_insert].
  - apply IH; [done|by eapply dominates_tail].
Qed.

Lemma unique_from_max (seen : gmap string Q) (l : list Predict_Tuple)
    (w : string) (s s' : Q) :
  StronglySorted desc l → dominates seen l →
  (w, s) ∈ unique_from seen l → (w, s') ∈ l → (s' <= s)%Q.
Proof.
  revert seen. induction l as [|[w0 s0] l IH]; intros seen Hs Hd.
  { by intros ?%elem_of_nil. }
  cbn [unique_from]. rewrite (is_new_or_better_sorted _ _ _ l) by done.
  pose proof (StronglySorted_inv Hs) as [Hs' Hall].
  rewrite Forall_forall in Hall.
  case_bool_decide as Hw0.
  - rewrite !elem_of_cons. intros [[= -> ->]|Hin] [[= ->]|Hin'].
    + apply Qle_refl.
    + by apply (Hall (w0, s')).
    + subst. assert (w0 ∈ (unique_from (<[w0:=s0]> seen) l).*1) as Hf.
      { apply list_elem_of_fmap. by exists (w0, s). }
      apply unique_from_fresh in Hf; [|done|by apply dominates_insert].
      by rewrite lookup_insert_eq in Hf.
    + eapply IH; [done|by apply dominates_insert|done..].
  - intros Hin. rewrite elem_of_cons. intros [[= -> ->]|Hin'].
    + assert (w0 ∈ (unique_from seen l).*1) as Hf.
      { apply list_elem_of_fmap. by exists (w0, s). }
      apply unique_from_fresh in Hf; [done..|by eapply dominates_tail].
    + eapply IH; [done|by eapply dominates_tail|done..].
Qed.

Lemma unique_from_sorted (seen : gmap string Q) (l : list Predict_Tuple) :
  StronglySorted desc l → StronglySorted desc (unique_from seen l).
Proof.
  revert seen. induction l as [|[w0 s0] l IH]; intros seen Hs.
  { constructor. }
  apply StronglySorted_inv in Hs as [Hs' Hall].
  cbn [unique_from]. destruct (is_new_or_better seen w0 s0); [|by apply IH].
  constructor; [by apply IH|].
  rewrite Forall_forall in Hall |- *.
  intros p Hp. apply Hall. by eapply unique_from_elem.
Qed.

(** A sorted sublist without repeated terms passes the loop unchanged. *)
Lemma unique_from_id (seen : gmap string Q) (l : list Predict_Tuple) :
  NoDup l.*1 → (∀ w, w ∈ l.*1 → seen !! w = None) →
  unique_from seen l = l.
Proof.
  revert seen. induction l as [|[w0 s0] l IH]; intros seen Hnd Hfresh; [done|].
  cbn [unique_from]. unfold is_new_or_better.
  rewrite Hfresh by (cbn; apply elem_of_cons; by left).
  apply NoDup_cons in Hnd as [Hw0 Hnd]. f_equal. apply IH; [done|].
  intros w Hw. rewrite lookup_insert_ne by (intros ->; done).
  apply Hfresh. cbn. apply elem_of_cons. by right.
Qed.
End sorted_input.

(** ** The scores of a sentence *)

Lemma Qmax_cases (a b : Q) : Qmax a b = a ∨ Qmax a b = b.
Proof.
  unfold Qmax, GenericMinMax.gmax. destruct (a ?= b)%Q; auto.
Qed.

Lemma fold_Qmax_spec (r : list Q) (x : Q) :
  let m := fold_left Qmax r x in
  m ∈ x :: r ∧ Forall (λ y, (y <= m)%Q) (x :: r).
Proof.
  revert x. induction r as [|y r IH]; intros x; cbn [fold_left].
  - split; [by apply elem_of_cons; left|]. repeat constructor. apply Qle_refl.
  - destruct (IH (Qmax x y)) as [Hin Hall]. split.
    + apply elem_of_cons in Hin as [Hin|Hin].
      * rewrite Hin. destruct (Qmax_cases x y) as [->| ->].
        -- apply elem_of_cons; by left.
        -- apply elem_of_cons; right. apply elem_of_cons; by left.
      * apply elem_of_cons; right. apply elem_of_cons; by right.
    + apply Forall_cons in Hall as [Hm Hall].
      constructor; [|constructor; [|done]].
      * eapply Qle_trans; [apply Q.le_max_l|exact Hm].
      * eapply Qle_trans; [apply Q.le_max_r|exact Hm].
Qed.

Lemma np_max_Ok (row : list Q) (s : Q) :
  np_max row = Ok s → s ∈ row ∧ Forall (λ y, (y <= s)%Q) row.
Proof.
  destruct row as [|x r]; [done|]. intros [= <-]. apply fold_Qmax_spec.
Qed.

Lemma np_max_is_Ok (row : list Q) : row ≠ [] → is_Ok (np_max row).
Proof. destruct row; [done|]. intros _. by eexists. Qed.

Lemma elem_of_drop_lookup {A} (n : nat) (l : list A) (x : A) :
  x ∈ drop n l ↔ ∃ c, (n ≤ c)%nat ∧ l !! c = Some x.
Proof.
  rewrite list_elem_of_lookup. split.
  - intros [i Hi]. rewrite lookup_drop in Hi. exists (n + i)%nat. split; [lia|done].
  - intros (c & Hc & Hx). exists (c - n)%nat. rewrite lookup_drop.
    by replace (n + (c - n))%nat with c by lia.
Qed.

Lemma has_columns_true (probs0 : list (list Q)) :
  forallb (λ row, 2 <? length row)%nat probs0 = true
  ↔ Forall (λ row, 2 < length row)%nat probs0.
Proof.
  rewrite forallb_forall, Forall_forall. split.
  - intros H row Hrow. by apply Nat.ltb_lt, H, list_elem_of_In.
  - intros H row Hrow. by apply Nat.ltb_lt, H, list_elem_of_In.
Qed.

(** [max_values] returns only on a matrix of more than two columns, and
    then with the maxima of the scored rows. *)
Lemma max_values_Ok_inv (words : list string) (probs0 : list (list Q))
    (mv : list Q) :
  max_values words probs0 = Ok mv →
  Forall (λ row, 2 < length row)%nat probs0
  ∧ mapM (λ row, np_max (drop 2 row)) (take (length words - 1) (drop 1 probs0))
    = Ok mv.
Proof.
  unfold max_values.
  destruct (forallb _ probs0) eqn:Hcols; [|done].
  intros H. split; [by apply has_columns_true|done].
Qed.

(** [max_values] returns when every row has a sentiment column. *)
Lemma max_values_is_Ok (words : list string) (probs0 : list (list Q)) :
  Forall (λ row, 2 < length row)%nat probs0 → is_Ok (max_values words probs0).
Proof.
  intros Hcols. unfold max_values.
  rewrite (proj2 (has_columns_true probs0) Hcols).
  apply mapM_is_Ok, Forall_forall. intros row Hrow.
  apply np_max_is_Ok. intros Hnil.
  apply elem_of_take in Hrow as (c & Hrow & _). rewrite lookup_drop in Hrow.
  rewrite Forall_forall in Hcols.
  assert (2 < length row)%nat as Hlen
    by (apply Hcols; by eapply list_elem_of_lookup_2).
  apply (f_equal length) in Hnil. rewrite length_drop in Hnil. cbn in Hnil. lia.
Qed.

Lemma max_values_length (words : list string) (probs0 : list (list Q))
    (mv : list Q) :
  max_values words probs0 = Ok mv →
  length mv = (length words - 1) `min` (length probs0 - 1).
Proof.
  intros [_ H]%max_values_Ok_inv. apply mapM_length in H.
  by rewrite H, length_take, length_drop.
Qed.

Lemma max_values_lookup (words : list string) (probs0 : list (list Q))
    (mv : list Q) (j : nat) (s : Q) :
  max_values words probs0 = Ok mv → mv !! j = Some s →
  ∃ row, probs0 !! S j = Some row ∧ np_max (drop 2 row) = Ok s.
Proof.
  intros [_ H]%max_values_Ok_inv Hj. apply mapM_Ok in H.
  destruct (Forall2_lookup_r _ _ _ _ _ H Hj) as (row & Hrow & Hmax).
  exists row. split; [|done].
  apply lookup_take_Some in Hrow as [Hrow _]. by rewrite lookup_drop in Hrow.
Qed.

(** ** Naming the ranked indices *)

Lemma name_sublist_Ok (words_list : list (list string)) (i : nat)
    (ws : list string) (sublist : list (nat * Q)) :
  words_list !! i = Some ws →
  Forall (λ p, p.1 < length ws)%nat sublist →
  name_sublist words_list i sublist = Ok (name_of ws <$> sublist).
Proof.
  intros Hi Hall. apply mapM_fmap. eapply Forall_impl; [exact Hall|].
  intros [j s] Hj. cbn in Hj. unfold py_index. rewrite Hi. cbn.
  apply lookup_lt_is_Some_2 in Hj as [w Hw]. rewrite Hw. cbn.
  unfold name_of. cbn. by rewrite (list_lookup_total_correct _ _ _ Hw).
Qed.

Lemma name_of_enumerate (words : list string) (mv : list Q) :
  (length mv ≤ length words)%nat →
  name_of words <$> enumerate mv = zip words mv.
Proof.
  intros Hlen. apply list_eq. intros j. unfold enumerate.
  rewrite list_lookup_fmap, list_lookup_imap, lookup_zip_with.
  destruct (mv !! j) as [s|] eqn:Hs; cbn.
  - assert (j < length words)%nat as Hj.
    { apply lookup_lt_Some in Hs. lia. }
    apply lookup_lt_is_Some_2 in Hj as [w Hw]. rewrite Hw. cbn.
    unfold name_of. cbn. by rewrite (list_lookup_total_correct _ _ _ Hw).
  - by destruct (words !! j).
Qed.

Lemma enumerate_index {A} (l : list A) (p : nat * A) :
  p ∈ enumerate l → (p.1 < length l)%nat.
Proof.
  unfold enumerate. intros (j & x & -> & Hx)%elem_of_lookup_imap.
  cbn. by eapply lookup_lt_Some.
Qed.

Lemma ranked_indices_index (mv : list Q) :
  Forall (λ p, p.1 < length mv)%nat (ranked_indices mv).
Proof.
  apply Forall_forall. intros p Hp. apply enumerate_index.
  unfold ranked_indices in Hp. by rewrite sorted_reverse_perm in Hp.
Qed.

(** The ranker is the deduplication of the sorted candidate list, the
    candidates being the scored tokens in their original order. *)
Lemma rank_eq (words : list string) (probs0 : list (list Q)) (mv : list Q) :
  max_values words probs0 = Ok mv →
  rank words probs0 = Ok (rank_candidates (zip words mv)).
Proof.
  intros Hmv. pose proof (max_values_length _ _ _ Hmv) as Hlen.
  unfold rank. rewrite Hmv. cbn [mbind result_bind].
  unfold get_unique_prediction_results, enumerate.
  cbn [imap]. rewrite mapM_cons.
  rewrite (name_sublist_Ok [words] 0 words) by
    (first [done | eapply Forall_impl; [apply ranked_indices_index|];
                   cbn; intros; lia]).
  cbn. unfold rank_candidates, ranked_indices. do 3 f_equal.
  rewrite <- (sorted_reverse_fmap (name_of words) snd snd) by done.
  f_equal. apply name_of_enumerate. lia.
Qed.

Lemma rank_candidates_from (cands : list Predict_Tuple) :
  rank_candidates cands = unique_from ∅ (sorted_reverse snd cands).
Proof. apply unique_sublist_from. Qed.

Lemma rank_candidates_elem (cands : list Predict_Tuple) (p : Predict_Tuple) :
  p ∈ rank_candidates cands → p ∈ cands.
Proof.
  rewrite rank_candidates_from. intros H%unique_from_elem.
  by rewrite sorted_reverse_perm in H.
Qed.

(** ** The candidate ranker: sorted, deduplicated, the best score winning *)

(** C1. For every sentence the ranker returns a list ordered by score
    descending, with at most one entry per distinct term, and the entry
    kept for a term carries the maximum score the term has among the
    candidates of the sentence (every term of a candidate is kept).  The
    candidates are the tokens paired with the scores [max_values] computes,
    and the ranker returns whenever every score row has a sentiment
    column.  The same holds of sorting and deduplicating any list of
    (term, score) pairs, and on [("good",0.9), ("food",0.4), ("good",0.7)]
    the result is exactly [("good",0.9), ("food",0.4)]. *)
Theorem rank_sorted_unique_max :
  (∀ cands : list Predict_Tuple,
      StronglySorted desc (rank_candidates cands)
      ∧ NoDup (rank_candidates cands).*1
      ∧ (∀ w, w ∈ cands.*1 → w ∈ (rank_candidates cands).*1)
      ∧ (∀ w s, (w, s) ∈ rank_candidates cands →
           (w, s) ∈ cands ∧ ∀ s', (w, s') ∈ cands → (s' <= s)%Q))
  ∧ (∀ (words : list string) (probs0 : list (list Q)) (out : list Predict_Tuple),
      rank words probs0 = Ok out →
      ∃ mv, max_values words probs0 = Ok mv
            ∧ out = rank_candidates (zip words mv)
            ∧ StronglySorted desc out
            ∧ NoDup out.*1
            ∧ (∀ w s, (w, s) ∈ out →
                 (w, s) ∈ zip words mv
                 ∧ ∀ s', (w, s') ∈ zip words mv → (s' <= s)%Q))
  ∧ (∀ (words : list string) (probs0 : list (list Q)),
      Forall (λ row, 2 < length row)%nat probs0 → is_Ok (rank words probs0))
  ∧ rank_candidates [("good", 9#10); ("food", 4#10); ("good", 7#10)]%Q
    = [("good", 9#10); ("food", 4#10)]%Q.
Proof.
  assert (∀ cands : list Predict_Tuple,
      StronglySorted desc (rank_candidates cands)
      ∧ NoDup (rank_candidates cands).*1
      ∧ (∀ w, w ∈ cands.*1 → w ∈ (rank_candidates cands).*1)
      ∧ (∀ w s, (w, s) ∈ rank_candidates cands →
           (w, s) ∈ cands ∧ ∀ s', (w, s') ∈ cands → (s' <= s)%Q)) as Hgen.
  { intros cands.
    pose proof (sorted_reverse_sorted snd cands) as Hs.
    pose proof (dominates_empty (sorted_reverse snd cands)) as Hd.
    repeat split.
    - rewrite rank_candidates_from. by apply unique_from_sorted.
    - rewrite rank_candidates_from. by apply unique_from_NoDup.
    - intros w ([w' s] & -> & Hin)%list_elem_of_fmap. cbn.
      rewrite rank_candidates_from.
      apply (unique_from_cover _ _ w' s); [|apply lookup_empty].
      by rewrite sorted_reverse_perm.
    - by apply rank_candidates_elem.
    - intros s' Hin'. rewrite rank_candidates_from in H.
      eapply unique_from_max; [exact Hs|exact Hd|exact H|].
      by rewrite sorted_reverse_perm. }
  split; [exact Hgen|]. split; [|split; [|by vm_compute]].
  - intros words probs0 out Hrank.
    destruct (max_values words probs0) as [mv|e] eqn:Hmv.
    + exists mv. rewrite (rank_eq _ _ _ Hmv) in Hrank. injection Hrank as <-.
      destruct (Hgen (zip words mv)) as (? & ? & _ & ?). done.
    + unfold rank in Hrank. by rewrite Hmv in Hrank.
  - intros words probs0 [mv Hmv]%(max_values_is_Ok words).
    eexists. by apply rank_eq.
Qed.

Lemma rank_sorted_unique_max_witness :
  ∃ out, rank ["good"; "food"; "good"; "."]
              [[0; 0; 0; 0; 0]; [5; 5; 9#10; 1#10; 2#10];
               [5; 5; 1#10; 4#10; 2#10]; [5; 5; 1#10; 2#10; 7#10];
               [5; 5; 1; 1; 1]; [5; 5; 1; 1; 1]]%Q = Ok out
         ∧ StronglySorted desc out ∧ NoDup out.*1.
Proof.
  exists [("good", 9#10); ("food", 4#10)]%Q.
  split; [by vm_compute|].
  destruct rank_sorted_unique_max as (_ & H & _ & _).
  destruct (H ["good"; "food"; "good"; "."]
              [[0; 0; 0; 0; 0]; [5; 5; 9#10; 1#10; 2#10];
               [5; 5; 1#10; 4#10; 2#10]; [5; 5; 1#10; 2#10; 7#10];
               [5; 5; 1; 1; 1]; [5; 5; 1; 1; 1]]%Q
              [("good", 9#10); ("food", 4#10)]%Q)
    as (mv & _ & _ & Hs & Hn & _); [by vm_compute|].
  split; [exact Hs|exact Hn].
Defined.

(** ** The candidates of a sentence *)

(** C7. For every sentence whose score rows have a sentiment column, the
    scores the ranker sorts are: for each position [j] of the slice
    [1:len(words)] of the rows (row [j+1] of the matrix: row [0] and the
    rows from [len(words)] on are left out), the maximum of the row over
    the columns of id 2 and more (the two non-sentiment classes are left
    out); the score of position [j] is paired with the token [words[j]],
    and the ranker's result is the deduplication of the sorted list of
    these pairs, which before the sort stand in the order of the tokens. *)
Theorem candidates_sentiment_max (words : list string) (probs0 : list (list Q)) :
  Forall (λ row, 2 < length row)%nat probs0 →
  ∃ mv : list Q,
    max_values words probs0 = Ok mv
    ∧ length mv = (length words - 1) `min` (length probs0 - 1)
    ∧ (∀ j s, mv !! j = Some s →
         ∃ row, probs0 !! S j = Some row
           ∧ (∃ c, (2 ≤ c)%nat ∧ row !! c = Some s)
           ∧ (∀ c x, (2 ≤ c)%nat → row !! c = Some x → (x <= s)%Q))
    ∧ (∀ j w s, zip words mv !! j = Some (w, s)
                ↔ words !! j = Some w ∧ mv !! j = Some s)
    ∧ name_sublist [words] 0 (ranked_indices mv)
      = Ok (sorted_reverse snd (zip words mv))
    ∧ rank words probs0 = Ok (unique_sublist (sorted_reverse snd (zip words mv))).
Proof.
  intros Hcols.
  destruct (max_values_is_Ok words probs0 Hcols) as [mv Hmv].
  pose proof (max_values_length _ _ _ Hmv) as Hlen.
  exists mv. split_and!.
  - done.
  - done.
  - intros j s H.
    destruct (max_values_lookup _ _ _ _ _ Hmv H) as (row & Hrow & Hmax).
    apply np_max_Ok in Hmax as [Hin Hall].
    exists row. split; [done|]. split; [by apply elem_of_drop_lookup|].
    intros c x Hc Hx. rewrite Forall_forall in Hall. apply Hall.
    apply elem_of_drop_lookup. eauto.
  - intros j w s. rewrite lookup_zip_with.
    destruct (words !! j) as [w'|], (mv !! j) as [s'|]; cbn;
      (split; [intros ?|intros [? ?]]; by simplify_eq/=).
  - rewrite (name_sublist_Ok [words] 0 words) by
      (first [done | eapply Forall_impl; [apply ranked_indices_index|];
                     cbn; intros; lia]).
    f_equal. unfold ranked_indices.
    rewrite <- (sorted_reverse_fmap (name_of words) snd snd) by done.
    f_equal. apply name_of_enumerate. lia.
  - apply (rank_eq _ _ _ Hmv).
Qed.

Lemma candidates_sentiment_max_witness :
  ∃ mv : list Q,
    max_values ["good"; "food"; "good"; "."]
      [[0; 0; 0; 0; 0]; [5; 5; 9#10; 1#10; 2#10]; [5; 5; 1#10; 4#10; 2#10];
       [5; 5; 1#10; 2#10; 7#10]; [5; 5; 1; 1; 1]; [5; 5; 1; 1; 1]]%Q = Ok mv
    ∧ length mv = 3%nat.
Proof.
  destruct (candidates_sentiment_max ["good"; "food"; "good"; "."]
      [[0; 0; 0; 0; 0]; [5; 5; 9#10; 1#10; 2#10]; [5; 5; 1#10; 4#10; 2#10];
       [5; 5; 1#10; 2#10; 7#10]; [5; 5; 1; 1; 1]; [5; 5; 1; 1; 1]]%Q)
    as (mv & Hmv & Hlen & _).
  - repeat constructor.
  - exists mv. split; [exact Hmv|exact Hlen].
Defined.

(** ** Determinism and idempotence *)

Lemma insert_desc_head {A} (key : A → Q) (x : A) (l : list A) :
  Forall (key_desc key x) l → insert_desc key x l = x :: l.
Proof.
  destruct l as [|y l]; [done|]. intros [Hy _]%Forall_cons. cbn.
  by rewrite (proj2 (Qltb_ge _ _) Hy).
Qed.

(** Sorting a list that is already in descending order returns it. *)
Lemma sorted_reverse_id {A} (key : A → Q) (l : list A) :
  StronglySorted (key_desc key) l → sorted_reverse key l = l.
Proof.
  induction 1 as [|x l Hl IH Hx]; [done|].
  cbn [sorted_reverse foldr]. unfold sorted_reverse in IH. rewrite IH.
  by apply insert_desc_head.
Qed.

(** C9. The ranker is a function of its input, so two runs on identical
    input return identical output; the deduplication pass is idempotent
    on every sublist, in particular it returns an output of the ranker
    unchanged, and so does sorting and deduplicating that output again. *)
Theorem rank_deterministic_unique_idempotent :
  (∀ (words1 words2 : list string) (probs1 probs2 : list (list Q)),
      words1 = words2 → probs1 = probs2 →
      rank words1 probs1 = rank words2 probs2)
  ∧ (∀ sublist : list Predict_Tuple,
      unique_sublist (unique_sublist sublist) = unique_sublist sublist)
  ∧ (∀ (words : list string) (probs0 : list (list Q)) (out : list Predict_Tuple),
      rank words probs0 = Ok out →
      unique_sublist out = out ∧ rank_candidates out = out).
Proof.
  split_and!.
  - by intros words1 words2 probs1 probs2 -> ->.
  - intros sublist. rewrite !unique_sublist_from. apply unique_from_idemp.
  - intros words probs0 out Hrank.
    assert (∃ cands, out = rank_candidates cands) as [cands ->].
    { destruct (max_values words probs0) as [mv|e] eqn:Hmv.
      - rewrite (rank_eq _ _ _ Hmv) in Hrank. injection Hrank as <-. eauto.
      - unfold rank in Hrank. by rewrite Hmv in Hrank. }
    assert (unique_sublist (rank_candidates cands) = rank_candidates cands) as Hu.
    { rewrite rank_candidates_from, unique_sublist_from. apply unique_from_idemp. }
    split; [exact Hu|].
    unfold rank_candidates at 1. rewrite sorted_reverse_id; [exact Hu|].
    rewrite rank_candidates_from. apply unique_from_sorted, sorted_reverse_sorted.
Qed.

Lemma rank_deterministic_unique_idempotent_witness :
  unique_sublist [("good", 9#10); ("food", 4#10)]%Q
  = [("good", 9#10); ("food", 4#10)]%Q.
Proof.
  destruct rank_deterministic_unique_idempotent as (_ & _ & H).
  apply (H ["good"; "food"; "good"; "."]
           [[0; 0; 0; 0; 0]; [5; 5; 9#10; 1#10; 2#10];
            [5; 5; 1#10; 4#10; 2#10]; [5; 5; 1#10; 2#10; 7#10];
            [5; 5; 1; 1; 1]; [5; 5; 1; 1; 1]]%Q).
  by vm_compute.
Defined.

(** ** Deduplication of an unsorted sublist *)

(** C10. The deduplication loop returns one entry per term on every
    sublist sorted by descending score, and it needs the order: on the
    sublist [("good",0.4), ("good",0.9)], which is not sorted descending,
    [get_unique_prediction_results] keeps both entries, so its output
    holds the term "good" twice. *)
Theorem unique_needs_sorted_input :
  (∀ sublist : list Predict_Tuple,
      StronglySorted desc sublist → NoDup (unique_sublist sublist).*1)
  ∧ ¬ StronglySorted desc [(0%nat, 4#10); (1%nat, 9#10)]%Q
  ∧ ∃ out : list Predict_Tuple,
      get_unique_prediction_results
        [["good"; "good"]] [[(0%nat, 4#10); (1%nat, 9#10)]]%Q = Ok [out]
      ∧ out = [("good", 4#10); ("good", 9#10)]%Q
      ∧ ¬ NoDup out.*1.
Proof.
  split_and!.
  - intros sublist Hs. rewrite unique_sublist_from.
    apply unique_from_NoDup; [done|apply dominates_empty].
  - intros [_ Hall]%StronglySorted_inv.
    apply Forall_cons in Hall as [Hle _].
    unfold desc, key_desc, Qle in Hle. cbn in Hle. lia.
  - eexists. split; [by vm_compute|]. split; [done|].
    cbn. intros [Hnin _]%NoDup_cons. apply Hnin, elem_of_cons. by left.
Qed.

(** ** The gold aligner *)

Lemma filter_none {A} (f : A → bool) (l : list A) :
  (∀ x, In x l → f x = false) → List.filter f l = [].
Proof.
  induction l as [|x l IH]; [done|]. intros H. cbn.
  rewrite (H x) by (by left). apply IH. intros y Hy. apply H. by right.
Qed.

Lemma gold_step_eq (words : list string) (acc : list string) (i : nat) (a : Z) :
  gold_step words acc (i, a)
  = if bool_decide (1 < a)%Z && bool_decide (0 < i < length words)%nat
    then w ← py_index words (i - 1); Ok (acc ++ [w])
    else Ok acc.
Proof. reflexivity. Qed.

Lemma gold_loop (words : list string) (labels0 : list Z) (d k : nat)
    (acc : list string) :
  d = (length labels0 - k)%nat →
  for_each (gold_step words) (imap (λ i, pair (k + i)%nat) (drop k labels0)) acc
  = Ok (acc ++ ((λ i, words !!! (i - 1)%nat) <$>
                 List.filter (gold_test words labels0) (seq k d))).
Proof.
  revert k acc. induction d as [|d IH]; intros k acc Hd.
  - rewrite drop_ge by lia. cbn. by rewrite app_nil_r.
  - destruct (lookup_lt_is_Some_2 labels0 k) as [a Ha]; [lia|].
    rewrite (drop_S _ _ _ Ha), imap_cons. cbn [for_each seq List.filter].
    unfold gold_test at 1. rewrite Ha. replace (k + 0)%nat with k by lia.
    rewrite gold_step_eq.
    assert (imap ((λ i, pair (k + i)%nat) ∘ S) (drop (S k) labels0)
            = imap (λ i, pair (S k + i)%nat) (drop (S k) labels0)) as ->.
    { apply imap_ext. intros i x _. cbn. f_equal. lia. }
    destruct (bool_decide (1 < a)%Z && bool_decide (0 < k < length words)%nat)
      eqn:Htest.
    + apply andb_true_iff in Htest as [_ Hk%bool_decide_eq_true].
      destruct (lookup_lt_is_Some_2 words (k - 1)) as [w Hw]; [lia|].
      unfold py_index. rewrite Hw. cbn [mbind result_bind].
      rewrite IH by lia. cbn [fmap list_fmap].
      rewrite (list_lookup_total_correct _ _ _ Hw).
      by rewrite <- app_assoc.
    + cbn [mbind result_bind]. by rewrite IH by lia.
Qed.

Lemma gold_test_positions (words : list string) (labels0 : list Z) :
  List.filter (gold_test words labels0) (seq 0 (length labels0))
  = gold_positions words labels0.
Proof.
  set (n := length labels0). set (m := length words).
  set (N := (n `max` m)%nat).
  assert (List.filter (gold_test words labels0) (seq 0 n)
          = List.filter (gold_test words labels0) (seq 0 N)) as ->.
  { replace N with (n + (N - n))%nat by lia.
    rewrite seq_app, List.filter_app, (filter_none _ (seq _ (N - n))).
    - by rewrite app_nil_r.
    - intros i [Hi _]%in_seq. unfold gold_test.
      by rewrite lookup_ge_None_2 by (fold n; lia). }
  unfold gold_positions. fold m. destruct (decide (m = 0)%nat) as [Hm|Hm].
  - rewrite Hm. cbn. apply filter_none. intros i _. unfold gold_test.
    destruct (labels0 !! i); [|done].
    rewrite (bool_decide_eq_false_2 (0 < i < _)%nat) by (fold m; lia).
    apply andb_false_r.
  - replace N with (1 + ((m - 1) + (N - m)))%nat by lia.
    rewrite !seq_app, !List.filter_app.
    rewrite (filter_none _ (seq 0 1)), (filter_none _ (seq _ (N - m))).
    + rewrite app_nil_l, app_nil_r. apply List.filter_ext_in.
      intros i [Hi1 Hi2]%in_seq. unfold gold_test.
      destruct (labels0 !! i); [|done].
      rewrite (bool_decide_eq_true_2 (0 < i < _)%nat) by (fold m; lia).
      apply andb_true_r.
    + intros i [Hi _]%in_seq. unfold gold_test.
      destruct (labels0 !! i); [|done].
      rewrite (bool_decide_eq_false_2 (0 < i < _)%nat) by (fold m; lia).
      apply andb_false_r.
    + intros i [Hi1 Hi2]%in_seq. unfold gold_test.
      destruct (labels0 !! i); [|done].
      rewrite (bool_decide_eq_false_2 (0 < i < _)%nat) by (fold m; lia).
      apply andb_false_r.
Qed.

Lemma gold_words_eq (words : list string) (labels0 : list Z) :
  gold_words words labels0 = Ok (aligned_gold_words words labels0).
Proof.
  unfold gold_words, enumerate, aligned_gold_words.
  rewrite <- gold_test_positions.
  apply (gold_loop words labels0 (length labels0) 0 []). lia.
Qed.

Lemma filter_seq_sorted (f : nat → bool) (k d : nat) :
  StronglySorted lt (List.filter f (seq k d)).
Proof.
  revert k. induction d as [|d IH]; intros k; [constructor|].
  cbn. destruct (f k); [|apply IH].
  constructor; [apply IH|]. apply Forall_forall.
  intros i [Hi _]%list_elem_of_In%filter_In. apply in_seq in Hi. lia.
Qed.

(** C2. The gold aligner returns, for every row of gold label ids and
    every token list, the tokens [tokens[i-1]] of exactly the positions
    [i] with [1 ≤ i < len(tokens)] whose gold label id is greater than 1,
    in increasing order of [i]; on the ids [0,0,5,0] and the tokens
    ["a","b","c","d"] it returns ["b"]. *)
Theorem gold_words_aligned :
  (∀ (words : list string) (labels0 : list Z),
      gold_words words labels0
      = Ok ((λ i, words !!! (i - 1)%nat) <$> gold_positions words labels0)
      ∧ StronglySorted lt (gold_positions words labels0)
      ∧ (∀ i, i ∈ gold_positions words labels0
              ↔ (1 ≤ i < length words)%nat
                ∧ ∃ a, labels0 !! i = Some a ∧ (1 < a)%Z)
      ∧ (∀ i, i ∈ gold_positions words labels0 →
              is_Some (words !! (i - 1)%nat)))
  ∧ gold_words ["a"; "b"; "c"; "d"] [0; 0; 5; 0]%Z = Ok ["b"].
Proof.
  split; [|by vm_compute].
  intros words labels0.
  assert (∀ i, i ∈ gold_positions words labels0
              ↔ (1 ≤ i < length words)%nat
                ∧ ∃ a, labels0 !! i = Some a ∧ (1 < a)%Z) as Hpos.
  { intros i. unfold gold_positions.
    rewrite list_elem_of_In, filter_In, in_seq. split.
    - intros [Hi Ha]. split; [lia|].
      destruct (labels0 !! i) as [a|]; [|done].
      exists a. split; [done|]. by apply bool_decide_eq_true in Ha.
    - intros [Hi (a & -> & Ha)]. split; [lia|]. by apply bool_decide_eq_true. }
  split_and!.
  - apply gold_words_eq.
  - apply filter_seq_sorted.
  - exact Hpos.
  - intros i [Hi _]%Hpos. apply lookup_lt_is_Some_2. lia.
Qed.

(** ** Aspects with sentiment *)

Lemma py_slice_head (words : list string) (b e : Z) :
  (0 ≤ b ≤ e ∧ e < Z.of_nat (length words))%Z →
  py_slice words b (e + 1) !! 0%nat = words !! Z.to_nat b
  ∧ is_Some (words !! Z.to_nat b).
Proof.
  intros [[Hb He] Hn]. unfold py_slice, slice_bound.
  rewrite (proj2 (Z.ltb_ge b 0)), (proj2 (Z.ltb_ge (e + 1) 0)) by lia.
  rewrite (Z.min_l b), (Z.min_l (e + 1)) by lia. split.
  - rewrite lookup_take_lt by lia. rewrite lookup_drop. f_equal. lia.
  - apply lookup_lt_is_Some_2. lia.
Qed.

Lemma aspect_step_in_bounds (words : list string)
    (acc : list Aspect_With_Sentiment) (t : Z * Z * string) :
  span_in_bounds words t →
  aspect_step words acc t = Ok (acc ++ [aspect_of words t]).
Proof.
  destruct t as [[b e] p]. intros H.
  destruct (py_slice_head words b e H) as [Hhead [w Hw]].
  unfold aspect_step, py_index. rewrite Hhead, Hw. cbn.
  unfold aspect_of. cbn. by rewrite (list_lookup_total_correct _ _ _ Hw).
Qed.

Lemma assemble_loop (words : list string) (spans : list (Z * Z * string))
    (acc : list Aspect_With_Sentiment) :
  Forall (span_in_bounds words) spans →
  for_each (aspect_step words) spans acc = Ok (acc ++ (aspect_of words <$> spans)).
Proof.
  intros H. revert acc. induction H as [|t spans Ht _ IH]; intros acc.
  - cbn. by rewrite app_nil_r.
  - cbn [for_each]. rewrite aspect_step_in_bounds by done.
    cbn [mbind result_bind]. rewrite IH. cbn. by rewrite <- app_assoc.
Qed.

(** C8. For spans [(begin, end, polarity)] with
    [0 ≤ begin ≤ end < len(sentence)], the assembly raises nothing (the
    index [0] of the slice [words[begin:end+1]] is in range), and the
    record of each span has the token at [begin] as its aspect, the pair
    [(begin, end)] as its indices and the polarity as its sentiment. *)
Theorem assemble_aspects_in_bounds (words : list string)
    (p_ts_sequence : list (Z * Z * string)) :
  Forall (span_in_bounds words) p_ts_sequence →
  ∃ out : list Aspect_With_Sentiment,
    assemble_aspects words p_ts_sequence = Ok out
    ∧ Forall2 (λ '(beg, end_, polarity) a,
                 words !! Z.to_nat beg = Some (aspect a)
                 ∧ py_index (py_slice words beg (end_ + 1)) 0 = Ok (aspect a)
                 ∧ indices a = (beg, end_)
                 ∧ sentiment a = polarity)
              p_ts_sequence out.
Proof.
  intros H. exists (aspect_of words <$> p_ts_sequence). split.
  - unfold assemble_aspects. by rewrite assemble_loop.
  - apply Forall2_fmap_r, Forall_Forall2_diag.
    eapply Forall_impl; [exact H|]. intros [[b e] p] Ht.
    destruct (py_slice_head words b e Ht) as [Hhead [w Hw]].
    unfold aspect_of. cbn. rewrite (list_lookup_total_correct _ _ _ Hw).
    split_and!; try done. unfold py_index. by rewrite Hhead, Hw.
Qed.

Lemma assemble_aspects_in_bounds_witness :
  ∃ out : list Aspect_With_Sentiment,
    assemble_aspects ["great"; "food"; "today"] [(0, 1, "POS"); (2, 2, "NEG")]%Z
    = Ok out
    ∧ length out = 2%nat.
Proof.
  destruct (assemble_aspects_in_bounds ["great"; "food"; "today"]
              [(0, 1, "POS"); (2, 2, "NEG")]%Z) as (out & Hout & Hall).
  - repeat constructor; cbn; lia.
  - exists out. split; [exact Hout|].
    symmetry. exact (Forall2_length _ _ _ Hall).
Defined.

(** ** The schema registry *)

Lemma build_id2tag_loop (vocab l : list (string * Z)) (m : gmap Z string) :
  NoDup vocab.*1 → l ⊆ vocab →
  for_each (λ (absa_id2tag : gmap Z string) '(key, _),
              v ← dict_get (list_to_map vocab : gmap string Z) key;
              Ok (<[v := key]> absa_id2tag)) l m
  = Ok (fold_left (λ m' kv, <[snd kv := fst kv]> m') l m).
Proof.
  intros Hnd. revert m. induction l as [|[k v] l IH]; intros m Hsub; [done|].
  assert (dict_get (list_to_map vocab : gmap string Z) k = Ok v) as Hget.
  { unfold dict_get. rewrite (elem_of_list_to_map_1 vocab k v); [done..|].
    apply Hsub, elem_of_cons. by left. }
  cbn [for_each fold_left]. rewrite Hget.
  cbn [mbind result_bind]. apply IH. intros x Hx. apply Hsub, elem_of_cons. by right.
Qed.

Lemma fold_insert_lookup (l : list (string * Z)) (m : gmap Z string)
    (id : Z) (tag : string) :
  NoDup l.*2 →
  (fold_left (λ m' kv, <[snd kv := fst kv]> m') l m) !! id = Some tag
  ↔ (tag, id) ∈ l ∨ ((id ∉ l.*2) ∧ m !! id = Some tag).
Proof.
  revert m. induction l as [|[k v] l IH]; intros m Hnd.
  - cbn. split; [intros H; right; split; [apply not_elem_of_nil|done]|].
    intros [H|[_ H]]; [by apply elem_of_nil in H|done].
  - apply NoDup_cons in Hnd as [Hv Hnd]. cbn [fold_left].
    rewrite IH by done. cbn. rewrite !elem_of_cons. split.
    + intros [H|[Hid H]]; [left; by right|].
      destruct (decide (v = id)) as [->|Hne].
      * rewrite lookup_insert_eq in H. injection H as ->. left. by left.
      * rewrite lookup_insert_ne in H by done. right. split; [|done].
        intros [?|?]; [congruence|done].
    + intros [[[= -> ->]|H]|[Hid H]].
      * right. split; [done|]. by rewrite lookup_insert_eq.
      * by left.
      * right. split; [tauto|].
        rewrite lookup_insert_ne by (intros ->; tauto). done.
Qed.

Lemma build_id2tag_spec (vocab : list (string * Z)) :
  NoDup vocab.*1 → NoDup vocab.*2 →
  ∃ id2tag, build_id2tag vocab = Ok id2tag
            ∧ ∀ tag id, id2tag !! id = Some tag ↔ (tag, id) ∈ vocab.
Proof.
  intros Hk Hv. eexists. split; [by apply build_id2tag_loop|].
  intros tag id. rewrite fold_insert_lookup by done.
  rewrite lookup_empty. split; [|by left]. by intros [?|[_ ?]].
Qed.

Lemma snd_unique {A B} (l : list (A * B)) (a a' : A) (b : B) :
  NoDup l.*2 → (a, b) ∈ l → (a', b) ∈ l → a = a'.
Proof.
  induction l as [|[x y] l IH]; [by intros _ ?%elem_of_nil|].
  cbn. intros [Hy Hnd]%NoDup_cons. rewrite !elem_of_cons.
  intros [H1|H1] [H2|H2]; [congruence| | |by apply IH].
  - exfalso. apply Hy, list_elem_of_fmap. exists (a', b).
    split; [|done]. cbn. congruence.
  - exfalso. apply Hy, list_elem_of_fmap. exists (a, b).
    split; [|done]. cbn. congruence.
Qed.

(** What makes a vocabulary a bijection between its tags and the ids
    [0 .. len-1]. *)
Lemma dense_vocab_bijection (vocab : list (string * Z)) :
  NoDup vocab.*1 → vocab.*2 = seqZ 0 (Z.of_nat (length vocab)) →
  NoDup vocab.*2
  ∧ (∀ tag id, (tag, id) ∈ vocab → (0 ≤ id < Z.of_nat (length vocab))%Z)
  ∧ (∀ id, (0 ≤ id < Z.of_nat (length vocab))%Z →
       ∃ tag, (tag, id) ∈ vocab ∧ ∀ tag', (tag', id) ∈ vocab → tag' = tag)
  ∧ (∀ tag id id', (tag, id) ∈ vocab → (tag, id') ∈ vocab → id = id').
Proof.
  intros Hk Hdense.
  assert (NoDup vocab.*2) as Hv by (rewrite Hdense; apply NoDup_seqZ).
  split_and!.
  - done.
  - intros tag id Hin.
    assert (id ∈ vocab.*2) as Hid by (apply list_elem_of_fmap; by exists (tag, id)).
    rewrite Hdense, elem_of_seqZ in Hid. lia.
  - intros id Hid.
    assert (id ∈ vocab.*2) as ([tag id'] & -> & Hin)%list_elem_of_fmap
      by (rewrite Hdense, elem_of_seqZ; lia).
    exists tag. split; [done|]. intros tag' Hin'. by eapply snd_unique.
  - intros tag id id' H1 H2.
    apply (elem_of_list_to_map_1 (M := gmap string)) in H1, H2; [|done..].
    congruence.
Qed.

(** The dict literal of a supported schema lists the tags of the schema,
    with the ids [0, 1, ...] in this order. *)
Lemma supported_vocab (tagging_schema : string) :
  supported tagging_schema →
  ∃ vocab, absa_label_vocab tagging_schema = Ok vocab
           ∧ NoDup vocab.*1 ∧ vocab.*2 = seqZ 0 (Z.of_nat (length vocab))
           ∧ ("O", 0%Z) ∈ vocab ∧ ("EQ", 1%Z) ∈ vocab.
Proof.
  intros [->|[->| ->]]; eexists; (split; [reflexivity|]);
    (split; [apply (bool_decide_unpack _); by vm_compute|]);
    (split; [reflexivity|]);
    split; apply (bool_decide_unpack _); by vm_compute.
Qed.

Lemma supported_vocab_tags (tagging_schema : string) (vocab : list (string * Z)) :
  absa_label_vocab tagging_schema = Ok vocab →
  vocab.*1 = schema_tags tagging_schema.
Proof.
  unfold absa_label_vocab. repeat case_decide; subst; intros [= <-];
    by vm_compute.
Qed.

(** C6. For each of the three schemas the dict is a bijection between
    the tag vocabulary of the schema ([schema_tags]: [O], [EQ] and the
    tags [P-x] of its position letters, 5 tags for OT, 8 for BIO and 14
    for BIEOS) and the ids [0 .. |schema|-1].  The keys of the dict are
    the tags of the schema, each once; a tag has one id, the ids lie in
    the range, and every id of the range belongs to exactly one tag; the
    dict [absa_id2tag] the loop builds is the inverse mapping, defined on
    the range exactly; [O] has id 0 and [EQ] id 1, and no other tag has
    an id of at most 1. *)
Theorem label_vocab_bijection (tagging_schema : string) :
  supported tagging_schema →
  ∃ (vocab : list (string * Z)) (id2tag : gmap Z string),
    absa_label_vocab tagging_schema = Ok vocab
    ∧ build_id2tag vocab = Ok id2tag
    ∧ vocab.*1 = schema_tags tagging_schema
    ∧ length vocab = length (schema_tags tagging_schema)
    ∧ length (schema_tags "OT") = 5%nat
    ∧ length (schema_tags "BIO") = 8%nat
    ∧ length (schema_tags "BIEOS") = 14%nat
    ∧ NoDup (schema_tags tagging_schema)
    ∧ NoDup vocab.*1
    ∧ (∀ tag id id', (tag, id) ∈ vocab → (tag, id') ∈ vocab → id = id')
    ∧ (∀ tag id, (tag, id) ∈ vocab → (0 ≤ id < Z.of_nat (length vocab))%Z)
    ∧ (∀ id, (0 ≤ id < Z.of_nat (length vocab))%Z →
         ∃ tag, (tag, id) ∈ vocab ∧ ∀ tag', (tag', id) ∈ vocab → tag' = tag)
    ∧ (∀ tag id, (list_to_map vocab : gmap string Z) !! tag = Some id
                 ↔ (tag, id) ∈ vocab)
    ∧ (∀ tag id, id2tag !! id = Some tag ↔ (tag, id) ∈ vocab)
    ∧ (∀ tag, tag ∈ schema_tags tagging_schema
              ↔ is_Some ((list_to_map vocab : gmap string Z) !! tag))
    ∧ (∀ id, (0 ≤ id < Z.of_nat (length (schema_tags tagging_schema)))%Z
             ↔ is_Some (id2tag !! id))
    ∧ (∀ tag id, (list_to_map vocab : gmap string Z) !! tag = Some id
                 ↔ id2tag !! id = Some tag)
    ∧ (list_to_map vocab : gmap string Z) !! "O" = Some 0%Z
    ∧ (list_to_map vocab : gmap string Z) !! "EQ" = Some 1%Z
    ∧ (∀ tag id, (list_to_map vocab : gmap string Z) !! tag = Some id →
                 (id ≤ 1)%Z → tag = "O" ∨ tag = "EQ").
Proof.
  intros (vocab & Hvocab & Hk & Hdense & HO & HEQ)%supported_vocab.
  pose proof (supported_vocab_tags _ _ Hvocab) as Htags.
  assert (length vocab = length (schema_tags tagging_schema)) as Hlen
    by (by rewrite <- Htags, length_fmap).
  destruct (dense_vocab_bijection vocab Hk Hdense) as (Hv & Hrange & Hsurj & Hfun).
  destruct (build_id2tag_spec vocab Hk Hv) as (id2tag & Hbuild & Hinv).
  assert (∀ tag id, (list_to_map vocab : gmap string Z) !! tag = Some id
                    ↔ (tag, id) ∈ vocab) as Hmap.
  { intros tag id. symmetry. by apply elem_of_list_to_map. }
  exists vocab, id2tag. split_and!; try done.
  - by rewrite <- Htags.
  - intros tag. rewrite <- Htags. split.
    + intros ([tag' id] & -> & Hin)%list_elem_of_fmap. exists id. by apply Hmap.
    + intros [id Hid%Hmap]. apply list_elem_of_fmap. by exists (tag, id).
  - intros id. rewrite <- Hlen. split.
    + intros (tag & Htag & _)%Hsurj. exists tag. by apply Hinv.
    + intros [tag Htag%Hinv]. by apply (Hrange tag).
  - intros tag id. by rewrite Hmap, Hinv.
  - by apply Hmap.
  - by apply Hmap.
  - intros tag id Hid%Hmap Hle. pose proof (Hrange _ _ Hid) as Hr.
    destruct (decide (id = 0%Z)) as [->|Hne].
    + left. by apply (snd_unique vocab tag "O" 0%Z).
    + right. assert (id = 1%Z) as -> by lia.
      by apply (snd_unique vocab tag "EQ" 1%Z).
Qed.

Lemma label_vocab_bijection_witness :
  ∃ (vocab : list (string * Z)) (id2tag : gmap Z string),
    absa_label_vocab "BIEOS" = Ok vocab
    ∧ build_id2tag vocab = Ok id2tag
    ∧ length vocab = 14%nat
    ∧ id2tag !! 13%Z = Some "S-NEU"
    ∧ (list_to_map vocab : gmap string Z) !! "S-NEU" = Some 13%Z.
Proof.
  destruct (label_vocab_bijection "BIEOS") as
    (vocab & id2tag & Hvocab & Hbuild & _ & Hlen & _ & _ & H14 & _ & _ & _ & _
     & _ & Hmap & Hinv & _).
  - right. right. reflexivity.
  - exists vocab, id2tag. split; [exact Hvocab|]. split; [exact Hbuild|].
    split; [by rewrite Hlen|].
    assert (("S-NEU", 13%Z) ∈ vocab) as Hin.
    { injection Hvocab as <-. apply (bool_decide_unpack _). by vm_compute. }
    split; [by apply Hinv|by apply Hmap].
Defined.

(** ** Where the schema error can come from *)

Lemma supported_registry (tagging_schema : string) :
  supported tagging_schema →
  ∃ vocab id2tag, absa_label_vocab tagging_schema = Ok vocab
                  ∧ build_id2tag vocab = Ok id2tag.
Proof.
  intros (vocab & Hvocab & Hk & Hdense & _)%supported_vocab.
  destruct (dense_vocab_bijection vocab Hk Hdense) as (Hv & _).
  destruct (build_id2tag_spec vocab Hk Hv) as (id2tag & Hbuild & _).
  by exists vocab, id2tag.
Qed.

Lemma unsupported_vocab (tagging_schema : string) :
  ¬ supported tagging_schema →
  absa_label_vocab tagging_schema = Raise (InvalidSchema tagging_schema).
Proof.
  intros Hs. unfold absa_label_vocab, supported in *.
  repeat case_decide; tauto.
Qed.

Lemma no_schema_error_Ok {A} (a : A) : no_schema_error (Ok a).
Proof. by intros schema. Qed.

Lemma no_schema_error_bind {A B} (m : result A) (k : A → result B) :
  no_schema_error m → (∀ a, no_schema_error (k a)) → no_schema_error (m ≫= k).
Proof.
  intros Hm Hk schema [H|(a & _ & H)]%bind_Raise; [by apply (Hm schema)|].
  by apply (Hk a schema).
Qed.

Lemma no_schema_error_mapM {A B} (f : A → result B) (l : list A) :
  (∀ x, no_schema_error (f x)) → no_schema_error (mapM f l).
Proof.
  intros Hf. induction l as [|x l IH]; [apply no_schema_error_Ok|].
  rewrite mapM_cons. apply no_schema_error_bind; [done|]. intros y.
  apply no_schema_error_bind; [done|]. intros k. apply no_schema_error_Ok.
Qed.

Lemma no_schema_error_for_each {S A} (body : S → A → result S) (l : list A)
    (st : S) :
  (∀ st x, no_schema_error (body st x)) → no_schema_error (for_each body l st).
Proof.
  intros Hb. revert st. induction l as [|x l IH]; intros st;
    [apply no_schema_error_Ok|].
  cbn. apply no_schema_error_bind; [done|]. intros st'. apply IH.
Qed.

Lemma no_schema_error_py_index {A} (l : list A) (i : nat) :
  no_schema_error (py_index l i).
Proof. unfold py_index. by destruct (l !! i); intros schema. Qed.

Lemma no_schema_error_dict_get `{Countable K} {V} (d : gmap K V) (k : K) :
  no_schema_error (dict_get d k).
Proof. unfold dict_get. by destruct (d !! k); intros schema. Qed.

Lemma no_schema_error_np_max (row : list Q) : no_schema_error (np_max row).
Proof. by destruct row; intros schema. Qed.

Lemma no_schema_error_py_assert (c : bool) : no_schema_error (py_assert c).
Proof. by destruct c; intros schema. Qed.

Lemma no_schema_error_unique (words_list : list (list string))
    (target_list : list (list (nat * Q))) :
  no_schema_error (get_unique_prediction_results words_list target_list).
Proof.
  apply no_schema_error_bind; [|intros; apply no_schema_error_Ok].
  apply no_schema_error_mapM. intros [i sublist].
  apply no_schema_error_mapM. intros [j score].
  apply no_schema_error_bind; [apply no_schema_error_py_index|]. intros ws.
  apply no_schema_error_bind; [apply no_schema_error_py_index|]. intros w.
  apply no_schema_error_Ok.
Qed.

Lemma no_schema_error_max_values (words : list string)
    (probs0 : list (list Q)) :
  no_schema_error (max_values words probs0).
Proof.
  unfold max_values. destruct (forallb _ probs0); [|by intros schema].
  apply no_schema_error_mapM. intros row. apply no_schema_error_np_max.
Qed.

Create HintDb schema.

#[local] Hint Resolve no_schema_error_Ok no_schema_error_py_index
  no_schema_error_dict_get no_schema_error_np_max no_schema_error_py_assert
  no_schema_error_max_values no_schema_error_unique : schema.

Lemma predict_step_eq (ot2bieos_ts bio2ot_ts : list string → list string)
    (tag2ts : list string → list (Z * Z * string)) (tagging_schema : string)
    (crf : bool) (absa_id2tag : gmap Z string) (acc : Accum) (s : Sentence) :
  predict_step ot2bieos_ts bio2ot_ts tag2ts tagging_schema crf absa_id2tag acc s
  = (pred_labels ← mapM (py_index (preds0 s)) (label_indices s);
     _ ← py_assert (bool_decide (length (words s) = length pred_labels));
     probs0 ← py_index (if crf then [] else [logits0 s]) 0;
     mv ← max_values (words s) probs0;
     pred_tags ← mapM (dict_get absa_id2tag) pred_labels;
     sentiments_temp ←
       assemble_aspects (words s)
         (tag2ts (convert_tags ot2bieos_ts bio2ot_ts tagging_schema pred_tags));
     gold_labels_per_seq ← gold_words (words s) (labels0 s);
     Ok {| target_list := target_list acc ++ [ranked_indices mv];
           words_list := words_list acc ++ [words s];
           gold_target_list := gold_target_list acc ++ [gold_labels_per_seq];
           sentiment_output := sentiment_output acc ++ [sentiments_temp] |}).
Proof. reflexivity. Qed.

Lemma predict_eq (ot2bieos_ts bio2ot_ts : list string → list string)
    (tag2ts : list string → list (Z * Z * string)) (tagging_schema : string)
    (crf : bool) (batch : list Sentence) :
  predict ot2bieos_ts bio2ot_ts tag2ts tagging_schema crf batch
  = (vocab ← absa_label_vocab tagging_schema;
     absa_id2tag ← build_id2tag vocab;
     acc ← for_each (predict_step ot2bieos_ts bio2ot_ts tag2ts tagging_schema
                       crf absa_id2tag) batch Accum_init;
     unique_predictions ←
       get_unique_prediction_results (words_list acc) (target_list acc);
     Ok {| gold_targets := gold_target_list acc;
           unique_predictions := unique_predictions;
           aspects := sentiment_output acc |}).
Proof. reflexivity. Qed.

Section predict_facts.
Context (ot2bieos_ts bio2ot_ts : list string → list string).
Context (tag2ts : list string → list (Z * Z * string)).
Context (tagging_schema : string) (crf : bool).

Local Abbreviation predict_step :=
  (predict_step ot2bieos_ts bio2ot_ts tag2ts tagging_schema crf).
Local Abbreviation predict :=
  (predict ot2bieos_ts bio2ot_ts tag2ts tagging_schema crf).

Lemma no_schema_error_step (absa_id2tag : gmap Z string) (acc : Accum)
    (s : Sentence) :
  no_schema_error (predict_step absa_id2tag acc s).
Proof.
  rewrite predict_step_eq.
  apply no_schema_error_bind;
    [apply no_schema_error_mapM; auto with schema|intros pred_labels].
  apply no_schema_error_bind; [auto with schema|intros _].
  apply no_schema_error_bind; [auto with schema|intros probs0].
  apply no_schema_error_bind; [auto with schema|intros mv].
  apply no_schema_error_bind;
    [apply no_schema_error_mapM; auto with schema|intros pred_tags].
  apply no_schema_error_bind;
    [apply no_schema_error_for_each; intros st [[b e] p];
     apply no_schema_error_bind; auto with schema|intros a].
  apply no_schema_error_bind; [|auto with schema].
  apply no_schema_error_for_each. intros st [i x]. rewrite gold_step_eq.
  destruct (_ && _); [|auto with schema].
  apply no_schema_error_bind; auto with schema.
Qed.

(** C5. [predict] raises the schema error exactly for the names other
    than OT, BIO and BIEOS: for such a name it raises it on every batch,
    before the loop over the sentences starts (whatever the batch holds,
    the outcome is this error), and for the three supported names the
    lookup succeeds and no batch makes [predict] raise it. *)
Theorem invalid_schema_iff :
  (absa_label_vocab tagging_schema = Raise (InvalidSchema tagging_schema)
   ↔ ¬ supported tagging_schema)
  ∧ (is_Ok (absa_label_vocab tagging_schema) ↔ supported tagging_schema)
  ∧ (¬ supported tagging_schema →
     ∀ batch, predict batch = Raise (InvalidSchema tagging_schema))
  ∧ (supported tagging_schema → ∀ batch, no_schema_error (predict batch))
  ∧ ((∃ batch schema, predict batch = Raise (InvalidSchema schema))
     ↔ ¬ supported tagging_schema).
Proof.
  assert (supported tagging_schema → ∀ batch, no_schema_error (predict batch))
    as Hsup.
  { intros (vocab & id2tag & Hvocab & Hbuild)%supported_registry batch.
    rewrite predict_eq, Hvocab. cbn [mbind result_bind].
    rewrite Hbuild. cbn [mbind result_bind].
    apply no_schema_error_bind;
      [apply no_schema_error_for_each, no_schema_error_step|intros acc].
    apply no_schema_error_bind; auto with schema. }
  assert (¬ supported tagging_schema →
     ∀ batch, predict batch = Raise (InvalidSchema tagging_schema)) as Hunsup.
  { intros Hs batch. by rewrite predict_eq, (unsupported_vocab _ Hs). }
  split_and!.
  - split; [|apply unsupported_vocab].
    intros Hraise (vocab & Hvocab & _)%supported_vocab. congruence.
  - split; [|intros (vocab & Hvocab & _)%supported_vocab; by exists vocab].
    intros [vocab Hvocab]. destruct (decide (supported tagging_schema)); [done|].
    rewrite unsupported_vocab in Hvocab; done.
  - exact Hunsup.
  - exact Hsup.
  - split.
    + intros (batch & schema & Hraise) Hs. by apply (Hsup Hs batch schema).
    + intros Hs. exists [], tagging_schema. by apply Hunsup.
Qed.

End predict_facts.

(** ** The batch loop *)

Lemma mapM_py_index_is_Ok {A} (l : list A) (idxs : list nat) :
  Forall (λ i, i < length l)%nat idxs → is_Ok (mapM (py_index l) idxs).
Proof.
  intros H. apply mapM_is_Ok. eapply Forall_impl; [exact H|].
  intros i [x Hx]%lookup_lt_is_Some_2. exists x. by apply py_index_Ok.
Qed.

Lemma for_each_raise_at {S A} (body : S → A → result S) (pre post : list A)
    (x : A) (st st' : S) (e : exn) :
  for_each body pre st = Ok st' → body st' x = Raise e →
  for_each body (pre ++ x :: post) st = Raise e.
Proof. intros Hpre Hx. rewrite for_each_app, Hpre. cbn. by rewrite Hx. Qed.

Lemma for_each_not_Ok_at {S A} (body : S → A → result S) (pre post : list A)
    (x : A) (st : S) :
  (∀ st' st'', body st' x ≠ Ok st'') →
  ∀ st'', for_each body (pre ++ x :: post) st ≠ Ok st''.
Proof.
  intros Hx st''. rewrite for_each_app. intros (st' & _ & H)%bind_Ok.
  cbn in H. apply bind_Ok in H as (st1 & H & _). by apply Hx in H.
Qed.

Lemma named_ranked (words : list string) (mv : list Q) :
  (length mv ≤ length words)%nat →
  name_of words <$> ranked_indices mv = sorted_reverse snd (zip words mv).
Proof.
  intros Hlen. unfold ranked_indices.
  rewrite <- (sorted_reverse_fmap (name_of words) snd snd) by done.
  f_equal. by apply name_of_enumerate.
Qed.

(** [get_unique_prediction_results] works sublist by sublist: entry [i]
    of its result is the deduplication of sublist [i] named by the words
    of sentence [i]. *)
Lemma unique_results_Ok (words_list : list (list string))
    (target_list : list (list (nat * Q))) :
  Forall2 (λ ws t, Forall (λ p, p.1 < length ws)%nat t) words_list target_list →
  get_unique_prediction_results words_list target_list
  = Ok (zip_with (λ ws t, unique_sublist (name_of ws <$> t))
                 words_list target_list).
Proof.
  intros Hall. unfold get_unique_prediction_results.
  assert (mapM (λ '(i, sublist), name_sublist words_list i sublist)
               (enumerate target_list)
          = Ok (zip_with (λ ws t, name_of ws <$> t) words_list target_list))
    as ->.
  { apply mapM_Ok, Forall2_same_length_lookup_2.
    - apply Forall2_length in Hall. unfold enumerate.
      rewrite length_imap, length_zip_with. lia.
    - intros i [i' t] named Ht Hnamed. unfold enumerate in Ht.
      apply list_lookup_imap_Some in Ht as (t' & Ht & [= -> ->]).
      apply lookup_zip_with_Some in Hnamed as (ws & t'' & -> & Hws & Ht'').
      assert (t'' = t') as -> by congruence.
      apply name_sublist_Ok; [done|].
      by eapply (Forall2_lookup_lr _ _ _ _ _ _ Hall). }
  cbn. f_equal. apply list_eq. intros i.
  rewrite list_lookup_fmap, !lookup_zip_with.
  destruct (words_list !! i); [|done]. cbn. by destruct (target_list !! i).
Qed.

Lemma sentence_aspects_eq (ot2bieos_ts bio2ot_ts : list string → list string)
    (tag2ts : list string → list (Z * Z * string)) (tagging_schema : string)
    (absa_id2tag : gmap Z string) (s : Sentence) :
  sentence_aspects ot2bieos_ts bio2ot_ts tag2ts tagging_schema absa_id2tag s
  = (pred_labels ← mapM (py_index (preds0 s)) (label_indices s);
     pred_tags ← mapM (dict_get absa_id2tag) pred_labels;
     assemble_aspects (words s)
       (tag2ts (convert_tags ot2bieos_ts bio2ot_ts tagging_schema pred_tags))).
Proof. reflexivity. Qed.

(** The aligner returns no word for a sentence without gold labels. *)
Lemma gold_entry_empty (s : Sentence) : no_gold_labels s → gold_entry s = [].
Proof.
  intros Hle. unfold gold_entry, aligned_gold_words, gold_positions.
  rewrite filter_none; [done|]. intros i [Hi1 Hi2]%in_seq.
  destruct (labels0 s !! i) as [a|] eqn:Ha; [|done].
  apply bool_decide_eq_false_2. specialize (Hle i a ltac:(lia) Ha). lia.
Qed.

Section predict_batch.
Context (ot2bieos_ts bio2ot_ts : list string → list string).
Context (tag2ts : list string → list (Z * Z * string)).
Context (tagging_schema : string) (crf : bool).

Local Abbreviation predict_step :=
  (predict_step ot2bieos_ts bio2ot_ts tag2ts tagging_schema crf).
Local Abbreviation predict :=
  (predict ot2bieos_ts bio2ot_ts tag2ts tagging_schema crf).
Local Abbreviation sentence_aspects :=
  (sentence_aspects ot2bieos_ts bio2ot_ts tag2ts tagging_schema).

(** A sentence whose token count differs from the number of its predicted
    tags fails the assertion, unless the lookup of its tags already
    raised. *)
Lemma predict_step_mismatch (absa_id2tag : gmap Z string) (acc : Accum)
    (s : Sentence) :
  length (words s) ≠ length (label_indices s) →
  (∀ acc', predict_step absa_id2tag acc s ≠ Ok acc')
  ∧ (Forall (λ i, i < length (preds0 s))%nat (label_indices s) →
     predict_step absa_id2tag acc s = Raise AssertionError).
Proof.
  intros Hlen. rewrite predict_step_eq.
  destruct (mapM (py_index (preds0 s)) (label_indices s)) as [pl|e] eqn:Hpl.
  - apply mapM_length in Hpl. cbn [mbind result_bind].
    rewrite bool_decide_eq_false_2 by congruence. by cbn.
  - cbn. split; [done|]. intros [pl Hpl']%mapM_py_index_is_Ok. congruence.
Qed.

Lemma predict_step_Ok (absa_id2tag : gmap Z string) (acc acc' : Accum)
    (s : Sentence) :
  predict_step absa_id2tag acc s = Ok acc' →
  ∃ mv a,
    crf = false
    ∧ length (words s) = length (label_indices s)
    ∧ max_values (words s) (logits0 s) = Ok mv
    ∧ sentence_aspects absa_id2tag s = Ok a
    ∧ acc' = {| target_list := target_list acc ++ [ranked_indices mv];
                words_list := words_list acc ++ [words s];
                gold_target_list := gold_target_list acc ++ [gold_entry s];
                sentiment_output := sentiment_output acc ++ [a] |}.
Proof.
  rewrite predict_step_eq. intros H.
  apply bind_Ok in H as (pl & Hpl & H).
  apply bind_Ok in H as (u & Hassert & H).
  apply py_assert_Ok, bool_decide_eq_true in Hassert.
  apply bind_Ok in H as (probs0 & Hprobs & H).
  assert (crf = false ∧ probs0 = logits0 s) as [Hcrf ->].
  { destruct crf; [done|]. by injection Hprobs as <-. }
  apply bind_Ok in H as (mv & Hmv & H).
  apply bind_Ok in H as (tags & Htags & H).
  apply bind_Ok in H as (a & Ha & H).
  apply bind_Ok in H as (g & Hg & [= <-]).
  exists mv, a. split_and!; try done.
  - rewrite Hassert. by apply mapM_length in Hpl.
  - rewrite sentence_aspects_eq, Hpl. cbn [mbind result_bind].
    by rewrite Htags.
  - rewrite gold_words_eq in Hg. by injection Hg as <-.
Qed.

Lemma predict_loop_Ok (absa_id2tag : gmap Z string) (batch : list Sentence)
    (acc acc' : Accum) :
  for_each (predict_step absa_id2tag) batch acc = Ok acc' →
  ∃ (mvs : list (list Q)) (asps : list (list Aspect_With_Sentiment)),
    Forall2 (λ s mv, max_values (words s) (logits0 s) = Ok mv) batch mvs
    ∧ Forall2 (λ s a, sentence_aspects absa_id2tag s = Ok a) batch asps
    ∧ Forall (λ s, length (words s) = length (label_indices s)) batch
    ∧ target_list acc' = target_list acc ++ (ranked_indices <$> mvs)
    ∧ words_list acc' = words_list acc ++ (words <$> batch)
    ∧ gold_target_list acc' = gold_target_list acc ++ (gold_entry <$> batch)
    ∧ sentiment_output acc' = sentiment_output acc ++ asps.
Proof.
  revert acc. induction batch as [|s batch IH]; intros acc.
  - intros [= <-]. exists [], []. cbn. rewrite !app_nil_r.
    split_and!; done || constructor.
  - cbn [for_each]. intros (acc1 & Hstep & Hrest)%bind_Ok.
    apply predict_step_Ok in Hstep as (mv & a & _ & Hlen & Hmv & Ha & ->).
    apply IH in Hrest as (mvs & asps & Hmvs & Hasps & Hlens & Ht & Hw & Hg & Hs).
    cbn in Ht, Hw, Hg, Hs. exists (mv :: mvs), (a :: asps).
    rewrite Ht, Hw, Hg, Hs, <- !app_assoc.
    split_and!; done || by constructor.
Qed.

(** C4, amended. When the token count and the length of the predicted tag
    sequence disagree for one sentence of the batch, [predict] returns no
    result at all: the assertion fails and the error leaves [predict],
    whatever sentences stand before and after it.  The error is the
    [AssertionError] when the sentences before it were processed and the
    label positions of the sentence are positions of its predictions. *)
Theorem length_mismatch_aborts_batch (pre post : list Sentence) (s : Sentence) :
  length (words s) ≠ length (label_indices s) →
  (∀ r, predict (pre ++ s :: post) ≠ Ok r)
  ∧ (is_Ok (predict pre) →
     Forall (λ i, i < length (preds0 s))%nat (label_indices s) →
     predict (pre ++ s :: post) = Raise AssertionError).
Proof.
  intros Hlen. split.
  - intros r. rewrite predict_eq. intros (vocab & _ & H)%bind_Ok.
    apply bind_Ok in H as (id2tag & _ & H).
    apply bind_Ok in H as (acc & H & _). revert H.
    apply for_each_not_Ok_at. intros st' st''.
    by apply predict_step_mismatch.
  - intros [r Hpre] Hidx. rewrite predict_eq in Hpre |- *.
    apply bind_Ok in Hpre as (vocab & Hvocab & Hpre).
    apply bind_Ok in Hpre as (id2tag & Hbuild & Hpre).
    apply bind_Ok in Hpre as (acc & Hacc & _).
    rewrite Hvocab. cbn [mbind result_bind].
    rewrite Hbuild. cbn [mbind result_bind].
    rewrite (for_each_raise_at _ pre post s _ acc AssertionError); [done..|].
    by apply predict_step_mismatch.
Qed.

(** C3. In a result of [predict] the three lists [aspects],
    [unique_predictions] and [gold_targets] have exactly one entry per
    sentence of the batch, in the order of the batch: entry [i] of each
    list is the list of aspects, the ranking and the gold words of
    sentence [i] of the batch.  A sentence without gold labels (no label
    id above 1 at a position the aligner reads) still has its entry in
    [gold_targets], the empty list, at its own index. *)
Theorem predict_alignment (batch : list Sentence) (r : Predict_Result) :
  predict batch = Ok r →
  length (aspects r) = length batch
  ∧ length (unique_predictions r) = length batch
  ∧ length (gold_targets r) = length batch
  ∧ Forall2 (λ s ps, rank (words s) (logits0 s) = Ok ps)
            batch (unique_predictions r)
  ∧ (∃ vocab absa_id2tag,
       absa_label_vocab tagging_schema = Ok vocab
       ∧ build_id2tag vocab = Ok absa_id2tag
       ∧ Forall2 (λ s a, sentence_aspects absa_id2tag s = Ok a)
                 batch (aspects r))
  ∧ Forall2 (λ s g, gold_words (words s) (labels0 s) = Ok g)
            batch (gold_targets r)
  ∧ gold_targets r = gold_entry <$> batch
  ∧ (∀ i s, batch !! i = Some s → no_gold_labels s →
            gold_targets r !! i = Some []).
Proof.
  rewrite predict_eq. intros (vocab & Hvocab & H)%bind_Ok.
  apply bind_Ok in H as (id2tag & Hbuild & H).
  apply bind_Ok in H as (acc & Hloop & H).
  apply bind_Ok in H as (up & Hup & [= <-]). cbn.
  apply predict_loop_Ok in Hloop
    as (mvs & asps & Hmvs & Hasps & _ & Ht & Hw & Hg & Hs).
  cbn in Ht, Hw, Hg, Hs. rewrite Ht, Hw in Hup. rewrite Hs, Hg. clear Ht Hw Hg Hs.
  assert (Forall2 (λ s ps, rank (words s) (logits0 s) = Ok ps) batch up) as Hrank.
  { rewrite unique_results_Ok in Hup.
    - injection Hup as <-. clear Hasps. induction Hmvs as [|s mv batch mvs Hmv _ IH].
      + constructor.
      + cbn. constructor; [|exact IH].
        rewrite (rank_eq _ _ _ Hmv). f_equal. unfold rank_candidates. f_equal.
        symmetry. apply named_ranked. apply max_values_length in Hmv. lia.
    - apply Forall2_fmap, (Forall2_impl _ _ _ _ Hmvs). intros s mv Hmv.
      eapply Forall_impl; [apply ranked_indices_index|].
      cbn. intros p Hp. apply max_values_length in Hmv. lia. }
  split_and!.
  - symmetry. by eapply Forall2_length.
  - symmetry. by eapply Forall2_length.
  - apply length_fmap.
  - exact Hrank.
  - by exists vocab, id2tag.
  - apply Forall2_fmap_r, Forall_Forall2_diag, Forall_forall.
    intros s _. apply gold_words_eq.
  - done.
  - intros i s Hi Hnone. rewrite list_lookup_fmap, Hi. cbn.
    by rewrite gold_entry_empty.
Qed.

End predict_batch.

Lemma length_mismatch_aborts_batch_witness :
  predict_absa "BIEOS" false ([sentence_ex] ++ sentence_mismatch :: [sentence_ex])
  = Raise AssertionError.
Proof.
  apply length_mismatch_aborts_batch.
  - cbn. lia.
  - eexists. by vm_compute.
  - repeat constructor.
Defined.

Lemma predict_alignment_witness :
  ∃ r, predict_absa "BIEOS" false [sentence_plain; sentence_ex] = Ok r
       ∧ length (aspects r) = 2%nat
       ∧ length (unique_predictions r) = 2%nat
       ∧ length (gold_targets r) = 2%nat
       ∧ gold_targets r !! 0%nat = Some [].
Proof.
  destruct (predict_absa "BIEOS" false [sentence_plain; sentence_ex])
    as [r|e] eqn:Hr; [|by vm_compute in Hr].
  exists r. split; [reflexivity|].
  destruct (predict_alignment _ _ _ _ _ _ _ Hr)
    as (Ha & Hu & Hg & _ & _ & _ & _ & Hnone).
  split; [exact Ha|]. split; [exact Hu|]. split; [exact Hg|].
  apply (Hnone 0%nat sentence_plain); [reflexivity|].
  intros i a Hi Hia. destruct i as [|[|[|i]]]; cbn in Hi, Hia; [lia| | |lia];
    injection Hia as <-; lia.
Defined.

(** ** Where the claimed behaviour of a batch fails *)

(** Against C4: one sentence with three tokens and two predicted tags
    makes [predict] raise [AssertionError] for the whole batch, whether it
    comes first or last; its sibling, which alone is processed, is in no
    result. *)
Lemma length_mismatch_is_fatal_to_batch :
  predict_absa "BIEOS" false [sentence_mismatch; sentence_ex]
  = Raise AssertionError
  ∧ predict_absa "BIEOS" false [sentence_ex; sentence_mismatch]
    = Raise AssertionError
  ∧ is_Ok (predict_absa "BIEOS" false [sentence_ex]).
Proof.
  split; [by vm_compute|]. split; [by vm_compute|]. eexists. by vm_compute.
Qed.

(** ** [predict] returns on well-formed batches *)

Section predict_returns.
Context (ot2bieos_ts bio2ot_ts : list string → list string).
Context (tag2ts : list string → list (Z * Z * string)).
Context (tagging_schema : string).

(** What the specification promises of the transducers: the conversions
    keep the length of the sequence and the spans are in bounds. *)
Hypothesis ot2bieos_ts_length : ∀ tags, length (ot2bieos_ts tags) = length tags.
Hypothesis bio2ot_ts_length : ∀ tags, length (bio2ot_ts tags) = length tags.
Hypothesis tag2ts_in_bounds : ∀ tags,
  Forall (λ t, (0 ≤ t.1.1 ≤ t.1.2 ∧ t.1.2 < Z.of_nat (length tags))%Z)
         (tag2ts tags).

Local Abbreviation predict_step :=
  (predict_step ot2bieos_ts bio2ot_ts tag2ts tagging_schema false).
Local Abbreviation predict :=
  (predict ot2bieos_ts bio2ot_ts tag2ts tagging_schema false).

Lemma convert_tags_length (tags : list string) :
  length (convert_tags ot2bieos_ts bio2ot_ts tagging_schema tags) = length tags.
Proof.
  unfold convert_tags. repeat case_decide; [done| |done].
  by rewrite ot2bieos_ts_length.
Qed.

Lemma predict_step_is_Ok (n : nat) (absa_id2tag : gmap Z string) (acc : Accum)
    (s : Sentence) :
  (∀ p, (0 ≤ p < Z.of_nat n)%Z → is_Some (absa_id2tag !! p)) →
  well_formed n s → is_Ok (predict_step absa_id2tag acc s).
Proof.
  intros Hid [Hlen Hpos Hpreds Hcols]. rewrite predict_step_eq.
  destruct (mapM_py_index_is_Ok _ _ Hpos) as [pl Hpl]. rewrite Hpl.
  cbn [mbind result_bind].
  pose proof (mapM_length _ _ _ Hpl) as Hpl_len.
  rewrite bool_decide_eq_true_2 by congruence. cbn [py_assert mbind result_bind].
  cbn [py_index lookup list_lookup mbind result_bind].
  destruct (max_values_is_Ok (words s) _ Hcols) as [mv ->].
  cbn [mbind result_bind].
  assert (is_Ok (mapM (dict_get absa_id2tag) pl)) as [tags Htags].
  { apply mapM_is_Ok. apply mapM_Ok in Hpl.
    apply Forall_forall. intros p Hp.
    apply list_elem_of_lookup in Hp as [i Hi].
    destruct (Forall2_lookup_r _ _ _ _ _ Hpl Hi) as (j & _ & Hj).
    apply py_index_Ok, list_elem_of_lookup_2 in Hj.
    rewrite Forall_forall in Hpreds.
    destruct (Hid p (Hpreds p Hj)) as [tag Htag].
    exists tag. unfold dict_get. by rewrite Htag. }
  rewrite Htags. cbn [mbind result_bind].
  unfold assemble_aspects. rewrite assemble_loop.
  - cbn [mbind result_bind]. rewrite gold_words_eq. by eexists.
  - eapply Forall_impl; [apply tag2ts_in_bounds|]. intros t.
    unfold span_in_bounds. rewrite convert_tags_length.
    apply mapM_length in Htags. lia.
Qed.

Lemma predict_loop_is_Ok (n : nat) (absa_id2tag : gmap Z string)
    (batch : list Sentence) (acc : Accum) :
  (∀ p, (0 ≤ p < Z.of_nat n)%Z → is_Some (absa_id2tag !! p)) →
  Forall (well_formed n) batch →
  is_Ok (for_each (predict_step absa_id2tag) batch acc).
Proof.
  intros Hid Hwf. revert acc. induction Hwf as [|s batch Hs _ IH]; intros acc.
  - by eexists.
  - cbn [for_each].
    destruct (predict_step_is_Ok n absa_id2tag acc s Hid Hs) as [acc' ->].
    apply IH.
Qed.

(** For a supported schema and without CRF, [predict] returns a result on
    every batch of well-formed sentences. *)
Lemma predict_is_Ok (vocab : list (string * Z)) (batch : list Sentence) :
  absa_label_vocab tagging_schema = Ok vocab →
  Forall (well_formed (length vocab)) batch →
  is_Ok (predict batch).
Proof.
  intros Hvocab Hwf.
  assert (supported tagging_schema) as Hs.
  { destruct (decide (supported tagging_schema)) as [|Hn]; [done|].
    rewrite (unsupported_vocab _ Hn) in Hvocab. done. }
  apply supported_vocab in Hs as (vocab' & Hvocab' & Hk & Hdense & _).
  assert (vocab' = vocab) as -> by congruence.
  destruct (dense_vocab_bijection vocab Hk Hdense) as (Hv & _ & Hsurj & _).
  destruct (build_id2tag_spec vocab Hk Hv) as (id2tag & Hbuild & Hinv).
  assert (∀ p, (0 ≤ p < Z.of_nat (length vocab))%Z → is_Some (id2tag !! p))
    as Hid.
  { intros p (tag & Htag & _)%Hsurj. exists tag. by apply Hinv. }
  rewrite predict_eq, Hvocab. cbn [mbind result_bind].
  rewrite Hbuild. cbn [mbind result_bind].
  destruct (predict_loop_is_Ok _ id2tag batch Accum_init Hid Hwf)
    as [acc Hacc].
  rewrite Hacc. cbn [mbind result_bind].
  apply predict_loop_Ok in Hacc
    as (mvs & asps & Hmvs & _ & _ & Ht & Hw & _).
  cbn in Ht, Hw. rewrite Ht, Hw, unique_results_Ok; [by eexists|].
  apply Forall2_fmap, (Forall2_impl _ _ _ _ Hmvs). intros s mv Hmv.
  eapply Forall_impl; [apply ranked_indices_index|].
  cbn. intros p Hp. apply max_values_length in Hmv. lia.
Qed.

End predict_returns.

(** ** The transducers of the specification *)

Lemma bio2ot_ts_length (tags : list string) :
  length (seq_utils.bio2ot_ts tags) = length tags.
Proof. apply length_fmap. Qed.

Lemma ot2bieos_from_length (prev : option string) (tags : list string) :
  length (seq_utils.ot2bieos_from prev tags) = length tags.
Proof.
  revert prev. induction tags as [|t tags IH]; intros prev; [done|].
  cbn. by rewrite IH.
Qed.

(** The span extractor of the specification is in bounds on every tag
    sequence, well formed or not. *)
Lemma tag2ts_from_in_bounds (i : Z) (st : option (Z * string))
    (tags : list string) :
  (0 ≤ i)%Z →
  (∀ beg y, st = Some (beg, y) → (0 ≤ beg < i)%Z) →
  Forall (λ t, (0 ≤ t.1.1 ≤ t.1.2 ∧ t.1.2 < i + Z.of_nat (length tags))%Z)
         (seq_utils.tag2ts_from i st tags).
Proof.
  revert i st. induction tags as [|t tags IH]; intros i st Hi Hst.
  - cbn. destruct st as [[beg y]|]; [|constructor].
    specialize (Hst beg y eq_refl). repeat constructor; cbn; lia.
  - cbn [seq_utils.tag2ts_from length].
    assert (∀ st', (∀ beg y, st' = Some (beg, y) → (0 ≤ beg < i + 1)%Z) →
              Forall (λ t, (0 ≤ t.1.1 ≤ t.1.2
                            ∧ t.1.2 < i + Z.of_nat (S (length tags)))%Z)
                     (seq_utils.tag2ts_from (i + 1) st' tags)) as Hrest.
    { intros st' Hst'. eapply Forall_impl; [apply IH; [lia|exact Hst']|].
      intros t'. cbn. lia. }
    assert (∀ beg y, st = Some (beg, y) → (0 ≤ beg < i + 1)%Z) as Hst1.
    { intros beg y Hb. specialize (Hst beg y Hb). lia. }
    destruct (seq_utils.parse_tag t), st as [[beg y]|];
      try specialize (Hst beg y eq_refl);
      repeat (apply Forall_cons; split; [cbn; lia|]);
      apply Hrest; (done || intros ? ? [= <- <-]; lia).
Qed.

Lemma tag2ts_in_bounds (tags : list string) :
  Forall (λ t, (0 ≤ t.1.1 ≤ t.1.2 ∧ t.1.2 < Z.of_nat (length tags))%Z)
         (seq_utils.tag2ts tags).
Proof. apply (tag2ts_from_in_bounds 0 None tags); [done|done]. Qed.

(** With the transducers of the specification, [predict] returns on
    every well-formed batch of a supported schema. *)
Lemma predict_absa_is_Ok (tagging_schema : string) (vocab : list (string * Z))
    (batch : list Sentence) :
  absa_label_vocab tagging_schema = Ok vocab →
  Forall (well_formed (length vocab)) batch →
  is_Ok (predict_absa tagging_schema false batch).
Proof.
  apply predict_is_Ok.
  - apply ot2bieos_from_length.
  - apply bio2ot_ts_length.
  - apply tag2ts_in_bounds.
Qed.

(** * Further properties of [work.py] *)

(** ** The deduplication loop on arbitrary sublists *)

Lemma sublist_List_filter {A} (f : A → bool) (l1 l2 : list A) :
  l1 `sublist_of` l2 → List.filter f l1 `sublist_of` List.filter f l2.
Proof.
  induction 1 as [|x l1 l2 _ IH|x l1 l2 _ IH]; cbn.
  - constructor.
  - destruct (f x); [by apply sublist_skip|done].
  - destruct (f x); [by apply sublist_cons|done].
Qed.

Lemma sublist_fmap_2 {A B} (f : A → B) (l1 l2 : list A) :
  l1 `sublist_of` l2 → f <$> l1 `sublist_of` f <$> l2.
Proof.
  induction 1 as [|x l1 l2 _ IH|x l1 l2 _ IH]; cbn.
  - constructor.
  - by apply sublist_skip.
  - by apply sublist_cons.
Qed.

Lemma List_filter_sublist {A} (f : A → bool) (l : list A) :
  List.filter f l `sublist_of` l.
Proof.
  induction l as [|x l IH]; cbn; [constructor|].
  destruct (f x); [by apply sublist_skip|by apply sublist_cons].
Qed.

Lemma unique_from_sublist (seen : gmap string Q) (l : list Predict_Tuple) :
  unique_from seen l `sublist_of` l.
Proof.
  revert seen. induction l as [|[w s] l IH]; intros seen; [constructor|].
  cbn [unique_from]. destruct (is_new_or_better seen w s).
  - apply sublist_skip, IH.
  - apply sublist_cons, IH.
Qed.

(** The scores kept for one term grow strictly, and each of them beats
    the score recorded for the term when the loop started. *)
Lemma unique_from_increasing (seen : gmap string Q) (l : list Predict_Tuple)
    (w : string) :
  StronglySorted Qlt (filter (λ p, p.1 = w) (unique_from seen l)).*2
  ∧ ∀ t, seen !! w = Some t →
         Forall (Qlt t) (filter (λ p, p.1 = w) (unique_from seen l)).*2.
Proof.
  revert seen. induction l as [|[w0 s0] l IH]; intros seen.
  { split; [constructor|]. intros t _. constructor. }
  cbn [unique_from]. destruct (is_new_or_better seen w0 s0) eqn:Hk; [|apply IH].
  destruct (IH (<[w0:=s0]> seen)) as [Hs Hall].
  destruct (decide (w0 = w)) as [->|Hne].
  - rewrite filter_cons_True by done. cbn.
    specialize (Hall s0 (lookup_insert_eq _ _ _)). split.
    + by constructor.
    + intros t Ht. unfold is_new_or_better in Hk. rewrite Ht in Hk.
      apply Qltb_lt in Hk. constructor; [done|].
      eapply Forall_impl; [exact Hall|]. intros x Hx. by eapply Qlt_trans.
  - rewrite filter_cons_False by done. split; [done|].
    intros t Ht. apply Hall. by rewrite lookup_insert_ne.
Qed.

(** No score is lost: every entry of the sublist is matched, for its
    term, by a kept entry or by the recorded score, which is no smaller. *)
Lemma unique_from_keeps_max (seen : gmap string Q) (l : list Predict_Tuple)
    (w : string) (s : Q) :
  (w, s) ∈ l →
  (∃ s', (w, s') ∈ unique_from seen l ∧ (s <= s')%Q)
  ∨ (∃ t, seen !! w = Some t ∧ (s <= t)%Q).
Proof.
  revert seen. induction l as [|[w0 s0] l IH]; intros seen Hin.
  { by apply elem_of_nil in Hin. }
  cbn [unique_from]. apply elem_of_cons in Hin as [[= -> ->]|Hin].
  - unfold is_new_or_better. destruct (seen !! w0) as [t|] eqn:Ht.
    + destruct (Qltb t s0) eqn:Hlt.
      * left. exists s0. split; [apply elem_of_cons; by left|apply Qle_refl].
      * right. exists t. split; [done|]. by apply Qltb_ge.
    + left. exists s0. split; [apply elem_of_cons; by left|apply Qle_refl].
  - destruct (is_new_or_better seen w0 s0) eqn:Hk; [|by apply IH].
    destruct (IH (<[w0:=s0]> seen) Hin) as [(s' & Hs' & Hle)|(t & Ht & Hle)].
    + left. exists s'. split; [apply elem_of_cons; by right|done].
    + destruct (decide (w0 = w)) as [->|Hne].
      * rewrite lookup_insert_eq in Ht. injection Ht as <-.
        left. exists s0. split; [apply elem_of_cons; by left|done].
      * rewrite lookup_insert_ne in Ht by done. right. by exists t.
Qed.

(** X1. On any sublist, sorted or not, the deduplication loop of
    [get_unique_prediction_results] returns a subsequence of its input
    with the same terms; the scores it keeps for one term grow strictly
    from one kept entry to the next, and for every entry of the input
    the output holds an entry of the same term whose score is no smaller:
    the last entry kept for a term carries the maximum score of the
    term. *)
Theorem unique_sublist_invariants (sublist : list Predict_Tuple) :
  unique_sublist sublist `sublist_of` sublist
  ∧ (∀ w, w ∈ (unique_sublist sublist).*1 ↔ w ∈ sublist.*1)
  ∧ (∀ w, StronglySorted Qlt
            (filter (λ p, p.1 = w) (unique_sublist sublist)).*2)
  ∧ (∀ w s, (w, s) ∈ sublist →
        ∃ s', (w, s') ∈ unique_sublist sublist ∧ (s <= s')%Q).
Proof.
  rewrite unique_sublist_from. split_and!.
  - apply unique_from_sublist.
  - intros w. split.
    + intros ([w' s] & -> & Hin)%list_elem_of_fmap.
      apply list_elem_of_fmap. exists (w', s). split; [done|].
      by eapply unique_from_elem.
    + intros ([w' s] & -> & Hin)%list_elem_of_fmap.
      by apply (unique_from_cover _ _ w' s); [|apply lookup_empty].
  - intros w. apply unique_from_increasing.
  - intros w s Hin.
    destruct (unique_from_keeps_max ∅ _ _ _ Hin) as [H|(t & Ht & _)]; [done|].
    by rewrite lookup_empty in Ht.
Qed.

(** ** Ties in the ranking *)

Lemma rank_candidates_ties (cands : list Predict_Tuple) (k : Q) :
  List.filter (λ p, Qeq_bool p.2 k) (rank_candidates cands)
  `sublist_of` List.filter (λ p, Qeq_bool p.2 k) cands.
Proof.
  rewrite rank_candidates_from.
  rewrite <- (sorted_reverse_stable snd k cands).
  apply sublist_List_filter, unique_from_sublist.
Qed.

(** X4. Candidates of equal score are ranked in the order of the tokens:
    the entries of the ranking that carry a given score form a
    subsequence of the candidates of that score, taken in their original
    order ([sorted] is stable and the deduplication keeps the order). *)
Theorem rank_ties_in_token_order (words : list string)
    (probs0 : list (list Q)) (mv : list Q) (k : Q) :
  max_values words probs0 = Ok mv →
  ∃ out, rank words probs0 = Ok out
         ∧ List.filter (λ p, Qeq_bool p.2 k) out
           `sublist_of` List.filter (λ p, Qeq_bool p.2 k) (zip words mv).
Proof.
  intros Hmv. eexists. split; [by apply rank_eq|]. apply rank_candidates_ties.
Qed.

Lemma rank_ties_in_token_order_witness :
  ∃ out, rank ["good"; "food"; "nice"; "."]
              [[0; 0; 0; 0]; [5; 5; 4#10; 1#10]; [5; 5; 1#10; 9#10];
               [5; 5; 2#5; 1#10]; [5; 5; 1; 1]]%Q = Ok out
         ∧ List.filter (λ p, Qeq_bool p.2 (4#10)) out
           `sublist_of` [("good", 4#10); ("nice", 2#5)]%Q.
Proof.
  apply (rank_ties_in_token_order ["good"; "food"; "nice"; "."]
           [[0; 0; 0; 0]; [5; 5; 4#10; 1#10]; [5; 5; 1#10; 9#10];
            [5; 5; 2#5; 1#10]; [5; 5; 1; 1]]%Q
           [4#10; 9#10; 2#5]%Q (4#10)%Q).
  by vm_compute.
Defined.

(** ** What [get_unique_prediction_results] needs of its arguments *)

Lemma mapM_is_Ok_iff {A B} (f : A → result B) (l : list A) :
  is_Ok (mapM f l) ↔ Forall (λ x, is_Ok (f x)) l.
Proof.
  split; [|apply mapM_is_Ok]. intros [k Hk]. apply mapM_Ok in Hk.
  induction Hk as [|x y l k Hx _ IH]; constructor; [by exists y|done].
Qed.

(** When [f] raises nothing but [e], so does [mapM f]. *)
Lemma mapM_cases {A B} (f : A → result B) (l : list A) (e : exn) :
  (∀ x, x ∈ l → is_Ok (f x) ∨ f x = Raise e) →
  is_Ok (mapM f l) ∨ mapM f l = Raise e.
Proof.
  induction l as [|x l IH]; intros Hf; [left; by eexists|].
  rewrite mapM_cons.
  destruct (Hf x) as [[y ->]| ->]; [apply elem_of_cons; by left| |by right].
  cbn [mbind result_bind].
  destruct IH as [[k ->]| ->]; [|left; by eexists|by right].
  intros x' Hx'. apply Hf, elem_of_cons. by right.
Qed.

Lemma mapM_imap_Ok {A B C} (f : C → result B) (h : nat → A → C)
    (g : nat → A → B) (l : list A) :
  (∀ i x, l !! i = Some x → f (h i x) = Ok (g i x)) →
  mapM f (imap h l) = Ok (imap g l).
Proof.
  intros Hf. apply mapM_Ok, Forall2_same_length_lookup_2.
  - by rewrite !length_imap.
  - intros i c b (x & Hx & ->)%list_lookup_imap_Some
      (x' & Hx' & ->)%list_lookup_imap_Some.
    assert (x' = x) as -> by congruence. by apply Hf.
Qed.

Lemma name_sublist_nameable (words_list : list (list string)) (i : nat)
    (sublist : list (nat * Q)) :
  nameable words_list i sublist →
  name_sublist words_list i sublist
  = Ok (name_of (words_list !!! i) <$> sublist).
Proof.
  intros [->|(ws & Hws & Hall)]; [done|].
  rewrite (list_lookup_total_correct _ _ _ Hws). by apply name_sublist_Ok.
Qed.

Lemma name_sublist_Ok_nameable (words_list : list (list string)) (i : nat)
    (sublist : list (nat * Q)) :
  is_Ok (name_sublist words_list i sublist) → nameable words_list i sublist.
Proof.
  intros H%mapM_is_Ok_iff. destruct sublist as [|[j0 s0] sublist]; [by left|].
  right. pose proof (Forall_inv H) as [y Hy].
  apply bind_Ok in Hy as (ws & Hws%py_index_Ok & _).
  exists ws. split; [done|]. eapply Forall_impl; [exact H|].
  intros [j s] [y' Hy']. apply bind_Ok in Hy' as (ws' & Hws'%py_index_Ok & Hj).
  assert (ws' = ws) as -> by congruence.
  apply bind_Ok in Hj as (w & Hw%py_index_Ok & _).
  cbn. by eapply lookup_lt_Some.
Qed.

Lemma name_sublist_cases (words_list : list (list string)) (i : nat)
    (sublist : list (nat * Q)) :
  is_Ok (name_sublist words_list i sublist)
  ∨ name_sublist words_list i sublist = Raise IndexError.
Proof.
  apply mapM_cases. intros [j s] _. unfold py_index.
  destruct (words_list !! i) as [ws|]; [|by right]. cbn.
  destruct (ws !! j); [left; by eexists|by right].
Qed.

(** X2. [get_unique_prediction_results] returns exactly when every
    non-empty sublist of [target_list] has a sentence in [words_list] at
    its index and only indices of that sentence's words; it then returns
    one entry per sublist (sentences beyond the last sublist are ignored),
    entry [i] being the deduplication of sublist [i] named by the words
    of sentence [i].  In every other case it raises [IndexError]. *)
Theorem unique_prediction_results_outcome (words_list : list (list string))
    (target_list : list (list (nat * Q))) :
  ((∀ i sublist, target_list !! i = Some sublist →
                 nameable words_list i sublist) →
   get_unique_prediction_results words_list target_list
   = Ok (imap (λ i sublist,
                 unique_sublist (name_of (words_list !!! i) <$> sublist))
              target_list))
  ∧ (¬ (∀ i sublist, target_list !! i = Some sublist →
                     nameable words_list i sublist) →
     get_unique_prediction_results words_list target_list = Raise IndexError).
Proof.
  unfold get_unique_prediction_results, enumerate. split.
  - intros Hall.
    rewrite (mapM_imap_Ok _ pair
               (λ i sublist, name_of (words_list !!! i) <$> sublist)).
    + cbn. by rewrite fmap_imap.
    + intros i sublist Hi. by apply name_sublist_nameable, Hall.
  - intros Hnot.
    destruct (mapM_cases (λ '(i, sublist), name_sublist words_list i sublist)
                (imap pair target_list) IndexError) as [HOk| ->]; [| |done].
    { intros [i sublist] _. apply name_sublist_cases. }
    exfalso. apply Hnot. intros i sublist Hi.
    apply mapM_is_Ok_iff in HOk. rewrite Forall_forall in HOk.
    apply name_sublist_Ok_nameable, (HOk (i, sublist)).
    by apply elem_of_lookup_imap_2.
Qed.

(** ** The terms of a ranking *)

Lemma fst_zip_take {A B} (l : list A) (k : list B) :
  (zip l k).*1 = take (length k) l.
Proof.
  rewrite <- (zip_with_take_l pair l k).
  apply fst_zip. rewrite length_take. lia.
Qed.

Lemma rank_Ok_inv (words : list string) (probs0 : list (list Q))
    (out : list Predict_Tuple) :
  rank words probs0 = Ok out →
  ∃ mv, max_values words probs0 = Ok mv ∧ out = rank_candidates (zip words mv).
Proof.
  intros Hrank. destruct (max_values words probs0) as [mv|e] eqn:Hmv.
  - exists mv. rewrite (rank_eq _ _ _ Hmv) in Hrank. by injection Hrank as <-.
  - unfold rank in Hrank. by rewrite Hmv in Hrank.
Qed.

Lemma rank_candidates_terms (cands : list Predict_Tuple) (w : string) :
  w ∈ (rank_candidates cands).*1 ↔ w ∈ cands.*1.
Proof.
  split.
  - intros ([w' s] & -> & Hin)%list_elem_of_fmap.
    apply list_elem_of_fmap. exists (w', s). split; [done|].
    by apply rank_candidates_elem.
  - intros ([w' s] & -> & Hin)%list_elem_of_fmap. rewrite rank_candidates_from.
    apply (unique_from_cover _ _ w' s); [|apply lookup_empty].
    by rewrite sorted_reverse_perm.
Qed.

Lemma rank_candidates_length (cands : list Predict_Tuple) :
  (length (rank_candidates cands) ≤ length cands)%nat.
Proof.
  rewrite rank_candidates_from.
  etrans; [apply sublist_length, unique_from_sublist|].
  by rewrite sorted_reverse_perm.
Qed.

(** X3. The terms of the ranking of a sentence are exactly the distinct
    words among its first [n] tokens, [n] being the smaller of
    [len(words) - 1] and the number of score rows after the first: the
    last token of a sentence is never scored (it is ranked only when the
    same word stands earlier), and a sentence of at most one word has an
    empty ranking. *)
Theorem rank_terms_are_scored_prefix (words : list string)
    (probs0 : list (list Q)) (out : list Predict_Tuple) :
  rank words probs0 = Ok out →
  (∀ w, w ∈ out.*1
        ↔ w ∈ take ((length words - 1) `min` (length probs0 - 1)) words)
  ∧ (length out ≤ (length words - 1) `min` (length probs0 - 1))%nat
  ∧ ((length words ≤ 1)%nat → out = []).
Proof.
  intros (mv & Hmv & ->)%rank_Ok_inv.
  pose proof (max_values_length _ _ _ Hmv) as Hlen.
  assert (length (rank_candidates (zip words mv))
          ≤ (length words - 1) `min` (length probs0 - 1))%nat as Hle.
  { etrans; [apply rank_candidates_length|].
    rewrite length_zip_with. lia. }
  split_and!.
  - intros w. by rewrite rank_candidates_terms, fst_zip_take, Hlen.
  - exact Hle.
  - intros Hone. apply length_zero_iff_nil. lia.
Qed.

Lemma rank_terms_are_scored_prefix_witness :
  ("." ∈ [("good", 9#10); ("food", 4#10)]%Q.*1
   ↔ "." ∈ take (3 `min` 5) ["good"; "food"; "good"; "."])
  ∧ (length [("good", 9#10); ("food", 4#10)]%Q ≤ 3 `min` 5)%nat.
Proof.
  destruct (rank_terms_are_scored_prefix ["good"; "food"; "good"; "."]
              [[0; 0; 0; 0; 0]; [5; 5; 9#10; 1#10; 2#10];
               [5; 5; 1#10; 4#10; 2#10]; [5; 5; 1#10; 2#10; 7#10];
               [5; 5; 1; 1; 1]; [5; 5; 1; 1; 1]]%Q
              [("good", 9#10); ("food", 4#10)]%Q) as (Hterms & Hlen & _).
  - by vm_compute.
  - split; [exact (Hterms ".")|exact Hlen].
Defined.

(** ** Sentences are processed independently *)

Lemma Accum_app_init_l (d : Accum) : Accum_app Accum_init d = d.
Proof. by destruct d. Qed.

Lemma Accum_app_init_r (a : Accum) : Accum_app a Accum_init = a.
Proof. destruct a. unfold Accum_app. cbn. by rewrite !app_nil_r. Qed.

Lemma Accum_app_assoc (a b c : Accum) :
  Accum_app (Accum_app a b) c = Accum_app a (Accum_app b c).
Proof. unfold Accum_app. cbn. by rewrite !app_assoc. Qed.

Section predict_compose.
Context (ot2bieos_ts bio2ot_ts : list string → list string).
Context (tag2ts : list string → list (Z * Z * string)).
Context (tagging_schema : string) (crf : bool).

Local Abbreviation predict_step :=
  (predict_step ot2bieos_ts bio2ot_ts tag2ts tagging_schema crf).
Local Abbreviation predict :=
  (predict ot2bieos_ts bio2ot_ts tag2ts tagging_schema crf).

(** An iteration reads nothing of the lists accumulated so far: it
    appends to them what it would append to empty lists. *)
Lemma predict_step_shift (absa_id2tag : gmap Z string) (acc : Accum)
    (s : Sentence) :
  predict_step absa_id2tag acc s
  = d ← predict_step absa_id2tag Accum_init s; Ok (Accum_app acc d).
Proof.
  rewrite !predict_step_eq.
  destruct (mapM (py_index (preds0 s)) (label_indices s)) as [pl|]; [|done].
  cbn [mbind result_bind].
  destruct (py_assert _); [|done]. cbn [mbind result_bind].
  destruct (py_index _ 0); [|done]. cbn [mbind result_bind].
  destruct (max_values _ _); [|done]. cbn [mbind result_bind].
  destruct (mapM (dict_get absa_id2tag) pl); [|done]. cbn [mbind result_bind].
  destruct (assemble_aspects _ _); [|done]. cbn [mbind result_bind].
  destruct (gold_words _ _); [|done].
  cbn; unfold Accum_app; cbn; by rewrite ?app_nil_r.
Qed.

Lemma predict_loop_shift (absa_id2tag : gmap Z string) (batch : list Sentence)
    (acc : Accum) :
  for_each (predict_step absa_id2tag) batch acc
  = d ← for_each (predict_step absa_id2tag) batch Accum_init;
    Ok (Accum_app acc d).
Proof.
  revert acc. induction batch as [|s batch IH]; intros acc.
  - cbn. by rewrite Accum_app_init_r.
  - cbn [for_each]. rewrite (predict_step_shift _ acc).
    destruct (predict_step absa_id2tag Accum_init s) as [d|]; [|done].
    cbn [mbind result_bind]. rewrite IH, (IH d).
    destruct (for_each _ batch Accum_init) as [d'|]; [|done].
    cbn. by rewrite Accum_app_assoc.
Qed.

(** After the loop every stored index is an index of the words of its
    sentence, so naming the sublists raises nothing. *)
Lemma predict_loop_unique (absa_id2tag : gmap Z string) (batch : list Sentence)
    (acc : Accum) :
  for_each (predict_step absa_id2tag) batch Accum_init = Ok acc →
  length (words_list acc) = length (target_list acc)
  ∧ Forall2 (λ ws t, Forall (λ p, p.1 < length ws)%nat t)
            (words_list acc) (target_list acc).
Proof.
  intros (mvs & asps & Hmvs & _ & _ & -> & -> & _)%predict_loop_Ok. cbn.
  assert (Forall2 (λ ws t, Forall (λ p, p.1 < length ws)%nat t)
            (words <$> batch) (ranked_indices <$> mvs)) as Hall.
  { apply Forall2_fmap, (Forall2_impl _ _ _ _ Hmvs). intros s mv Hmv.
    eapply Forall_impl; [apply ranked_indices_index|].
    cbn. intros p Hp. apply max_values_length in Hmv. lia. }
  split; [by eapply Forall2_length|done].
Qed.

(** X7. [predict] on a batch made of two parts is [predict] on the first
    part, then on the second, with the three lists of the results
    concatenated; when a part raises, the batch raises the same error,
    the first part first.  No sentence influences the entries of
    another. *)
Theorem predict_app (batch1 batch2 : list Sentence) :
  predict (batch1 ++ batch2)
  = r1 ← predict batch1; r2 ← predict batch2; Ok (Predict_Result_app r1 r2).
Proof.
  rewrite !predict_eq.
  destruct (absa_label_vocab tagging_schema) as [vocab|]; [|done].
  cbn [mbind result_bind].
  destruct (build_id2tag vocab) as [id2tag|]; [|done].
  cbn [mbind result_bind]. rewrite for_each_app.
  destruct (for_each (predict_step id2tag) batch1 Accum_init)
    as [a1|] eqn:H1; [|done].
  cbn [mbind result_bind].
  destruct (predict_loop_unique _ _ _ H1) as [Hlen1 Hall1].
  rewrite (unique_results_Ok _ _ Hall1). cbn [mbind result_bind].
  rewrite predict_loop_shift.
  destruct (for_each (predict_step id2tag) batch2 Accum_init)
    as [a2|] eqn:H2; [|done].
  cbn [mbind result_bind].
  destruct (predict_loop_unique _ _ _ H2) as [Hlen2 Hall2].
  rewrite (unique_results_Ok _ _ Hall2). cbn [mbind result_bind].
  cbn [Accum_app words_list target_list gold_target_list sentiment_output].
  rewrite unique_results_Ok by (by apply Forall2_app).
  cbn. unfold Predict_Result_app. cbn. by rewrite zip_with_app.
Qed.

(** ** The CRF path *)

(** X5. With a CRF tagger [probs] stays the empty list, so [probs[0]]
    raises for every sentence that reaches it: [predict] returns a result
    only for the empty batch of a supported schema, and a batch whose
    first sentence passes the assertion raises [IndexError]. *)
Theorem crf_predict_outcome (batch : list Sentence) :
  crf = true →
  (is_Ok (predict batch) ↔ supported tagging_schema ∧ batch = [])
  ∧ (∀ s rest,
       batch = s :: rest → supported tagging_schema →
       Forall (λ i, i < length (preds0 s))%nat (label_indices s) →
       length (words s) = length (label_indices s) →
       predict batch = Raise IndexError).
Proof.
  intros Hcrf. split; [split|].
  - intros [r Hr]. rewrite predict_eq in Hr.
    apply bind_Ok in Hr as (vocab & Hvocab & Hr).
    apply bind_Ok in Hr as (id2tag & _ & Hr).
    apply bind_Ok in Hr as (acc & Hloop & _). split.
    + destruct (decide (supported tagging_schema)) as [|Hn]; [done|].
      by rewrite (unsupported_vocab _ Hn) in Hvocab.
    + destruct batch as [|s rest]; [done|]. cbn [for_each] in Hloop.
      apply bind_Ok in Hloop as (acc1 & Hstep & _).
      apply predict_step_Ok in Hstep as (_ & _ & Hfalse & _). congruence.
  - intros [(vocab & id2tag & Hvocab & Hbuild)%supported_registry ->].
    rewrite predict_eq, Hvocab. cbn [mbind result_bind].
    rewrite Hbuild. by eexists.
  - intros s rest -> (vocab & id2tag & Hvocab & Hbuild)%supported_registry
      Hpos Hlen.
    rewrite predict_eq, Hvocab. cbn [mbind result_bind].
    rewrite Hbuild. cbn [mbind result_bind for_each].
    rewrite predict_step_eq.
    destruct (mapM_py_index_is_Ok _ _ Hpos) as [pl Hpl]. rewrite Hpl.
    cbn [mbind result_bind]. apply mapM_length in Hpl.
    rewrite bool_decide_eq_true_2 by congruence. by rewrite Hcrf.
Qed.

End predict_compose.

Lemma crf_predict_outcome_witness :
  predict_absa "BIEOS" true [sentence_ex; sentence_ex] = Raise IndexError.
Proof.
  refine (proj2 (crf_predict_outcome _ _ _ "BIEOS" true
                   [sentence_ex; sentence_ex] eq_refl)
            sentence_ex [sentence_ex] eq_refl _ _ _).
  - right. right. reflexivity.
  - repeat constructor.
  - reflexivity.
Defined.

(** ** When [predict] returns, and what it raises on a foreign label *)

Lemma np_max_is_Ok_iff (row : list Q) : is_Ok (np_max row) ↔ row ≠ [].
Proof.
  split; [|apply np_max_is_Ok]. intros [x Hx] ->. done.
Qed.

(** [max_values] returns exactly on the matrices of more than two
    columns; on the others it raises [ValueError], also when no row is
    scored. *)
Lemma max_values_is_Ok_iff (words : list string) (probs0 : list (list Q)) :
  is_Ok (max_values words probs0)
  ↔ Forall (λ row, 2 < length row)%nat probs0.
Proof.
  split; [|apply max_values_is_Ok].
  intros [mv Hmv]. by apply max_values_Ok_inv in Hmv as [? _].
Qed.

Lemma max_values_ValueError (words : list string) (probs0 : list (list Q)) :
  ¬ Forall (λ row, 2 < length row)%nat probs0 →
  max_values words probs0 = Raise ValueError.
Proof.
  intros Hn. unfold max_values.
  destruct (forallb _ probs0) eqn:Hcols; [|done].
  by apply has_columns_true in Hcols.
Qed.

(** The ids [absa_id2tag] knows are those of the range of the schema. *)
Lemma id2tag_domain (tagging_schema : string) (vocab : list (string * Z))
    (id2tag : gmap Z string) (p : Z) :
  absa_label_vocab tagging_schema = Ok vocab →
  build_id2tag vocab = Ok id2tag →
  is_Some (id2tag !! p) ↔ (0 ≤ p < Z.of_nat (length vocab))%Z.
Proof.
  intros Hvocab Hbuild.
  assert (supported tagging_schema) as Hs.
  { destruct (decide (supported tagging_schema)) as [|Hn]; [done|].
    by rewrite (unsupported_vocab _ Hn) in Hvocab. }
  apply supported_vocab in Hs as (vocab' & Hvocab' & Hk & Hdense & _).
  assert (vocab' = vocab) as -> by congruence.
  destruct (dense_vocab_bijection vocab Hk Hdense) as (Hv & Hrange & Hsurj & _).
  destruct (build_id2tag_spec vocab Hk Hv) as (id2tag' & Hbuild' & Hinv).
  assert (id2tag' = id2tag) as -> by congruence. split.
  - intros [tag Htag]. by apply (Hrange tag), Hinv.
  - intros (tag & Htag & _)%Hsurj. exists tag. by apply Hinv.
Qed.

(** The labels looked up for a sentence are the predictions at its label
    positions. *)
Lemma pred_labels_elem (preds : list Z) (idxs : list nat) (pl : list Z) :
  mapM (py_index preds) idxs = Ok pl →
  (∀ p, p ∈ pl ↔ ∃ i, i ∈ idxs ∧ preds !! i = Some p).
Proof.
  intros H%mapM_Ok p. split.
  - intros [j Hj]%list_elem_of_lookup.
    destruct (Forall2_lookup_r _ _ _ _ _ H Hj) as (i & Hi & Hp%py_index_Ok).
    exists i. split; [by eapply list_elem_of_lookup_2|done].
  - intros (i & [j Hj]%list_elem_of_lookup & Hp).
    destruct (Forall2_lookup_l _ _ _ _ _ H Hj) as (p' & Hp' & Hi%py_index_Ok).
    assert (p' = p) as -> by congruence. by eapply list_elem_of_lookup_2.
Qed.

Section predict_outcome.
Context (ot2bieos_ts bio2ot_ts : list string → list string).
Context (tag2ts : list string → list (Z * Z * string)).
Context (tagging_schema : string).

Local Abbreviation predict_step :=
  (predict_step ot2bieos_ts bio2ot_ts tag2ts tagging_schema false).
Local Abbreviation predict :=
  (predict ot2bieos_ts bio2ot_ts tag2ts tagging_schema false).

Lemma predict_step_KeyError (absa_id2tag : gmap Z string) (acc : Accum)
    (s : Sentence) (i : nat) (p : Z) :
  length (words s) = length (label_indices s) →
  Forall (λ i, i < length (preds0 s))%nat (label_indices s) →
  Forall (λ row, 2 < length row)%nat (logits0 s) →
  i ∈ label_indices s → preds0 s !! i = Some p → absa_id2tag !! p = None →
  predict_step absa_id2tag acc s = Raise KeyError.
Proof.
  intros Hlen Hpos Hcols Hi Hp Hnone. rewrite predict_step_eq.
  destruct (mapM_py_index_is_Ok _ _ Hpos) as [pl Hpl]. rewrite Hpl.
  cbn [mbind result_bind]. pose proof (mapM_length _ _ _ Hpl) as Hpl_len.
  rewrite bool_decide_eq_true_2 by congruence.
  cbn [py_assert py_index lookup list_lookup mbind result_bind].
  apply (max_values_is_Ok_iff (words s)) in Hcols as [mv ->]. cbn [mbind result_bind].
  destruct (mapM_cases (dict_get absa_id2tag) pl KeyError) as [HOk| ->];
    [| |done].
  { intros x _. unfold dict_get. destruct (absa_id2tag !! x); [left|right];
      [by eexists|done]. }
  exfalso. apply mapM_is_Ok_iff in HOk. rewrite Forall_forall in HOk.
  destruct (HOk p) as [tag Htag].
  { apply (pred_labels_elem _ _ _ Hpl). eauto. }
  unfold dict_get in Htag. by rewrite Hnone in Htag.
Qed.

(** X6. When a sentence that passes the assertion and has its scores (a
    score matrix of more than two columns) carries, at one of its label
    positions, a predicted id outside the vocabulary of the schema (a
    checkpoint trained with a larger schema), looking up its tag raises
    [KeyError], and [predict] raises it for the whole batch once the
    sentences before it are processed. *)
Theorem foreign_label_raises_KeyError (vocab : list (string * Z))
    (pre post : list Sentence) (s : Sentence) (i : nat) (p : Z) :
  absa_label_vocab tagging_schema = Ok vocab →
  is_Ok (predict pre) →
  length (words s) = length (label_indices s) →
  Forall (λ i, i < length (preds0 s))%nat (label_indices s) →
  Forall (λ row, 2 < length row)%nat (logits0 s) →
  i ∈ label_indices s → preds0 s !! i = Some p →
  ¬ (0 ≤ p < Z.of_nat (length vocab))%Z →
  predict (pre ++ s :: post) = Raise KeyError.
Proof.
  intros Hvocab [r Hpre] Hlen Hpos Hcols Hi Hp Hrange.
  rewrite predict_eq in Hpre |- *. rewrite Hvocab in Hpre |- *.
  cbn [mbind result_bind] in Hpre |- *.
  apply bind_Ok in Hpre as (id2tag & Hbuild & Hpre).
  apply bind_Ok in Hpre as (acc & Hacc & _).
  rewrite Hbuild. cbn [mbind result_bind].
  rewrite (for_each_raise_at _ pre post s _ acc KeyError); [done..|].
  eapply predict_step_KeyError; [done..|].
  destruct (id2tag !! p) as [tag|] eqn:Htag; [|done].
  exfalso. apply Hrange, (id2tag_domain _ _ _ _ Hvocab Hbuild). by exists tag.
Qed.

(** What the specification promises of the transducers: the conversions
    keep the length of the sequence and the spans are in bounds. *)
Hypothesis ot2bieos_ts_length : ∀ tags, length (ot2bieos_ts tags) = length tags.
Hypothesis bio2ot_ts_length : ∀ tags, length (bio2ot_ts tags) = length tags.
Hypothesis tag2ts_in_bounds : ∀ tags,
  Forall (λ t, (0 ≤ t.1.1 ≤ t.1.2 ∧ t.1.2 < Z.of_nat (length tags))%Z)
         (tag2ts tags).

Lemma predict_step_processable (n : nat) (absa_id2tag : gmap Z string)
    (acc : Accum) (s : Sentence) :
  (∀ p, is_Some (absa_id2tag !! p) ↔ (0 ≤ p < Z.of_nat n)%Z) →
  is_Ok (predict_step absa_id2tag acc s) ↔ processable n s.
Proof.
  intros Hid. split.
  - intros [acc' Hstep].
    apply predict_step_Ok in Hstep as (mv & a & _ & Hlen & Hmv & Ha & _).
    rewrite sentence_aspects_eq in Ha.
    apply bind_Ok in Ha as (pl & Hpl & Ha).
    apply bind_Ok in Ha as (tags & Htags & _).
    split; [done|]. split; [|by apply max_values_Ok_inv in Hmv as [? _]].
    apply Forall_forall. intros i Hi.
    assert (is_Ok (mapM (py_index (preds0 s)) (label_indices s))) as HOk
      by (by exists pl).
    apply mapM_is_Ok_iff in HOk. rewrite Forall_forall in HOk.
    destruct (HOk i Hi) as [p Hp%py_index_Ok]. exists p. split; [done|].
    apply Hid.
    assert (is_Ok (mapM (dict_get absa_id2tag) pl)) as HOk'
      by (by exists tags).
    apply mapM_is_Ok_iff in HOk'. rewrite Forall_forall in HOk'.
    destruct (HOk' p) as [tag Htag].
    { apply (pred_labels_elem _ _ _ Hpl). eauto. }
    unfold dict_get in Htag. destruct (absa_id2tag !! p); [by eexists|done].
  - intros (Hlen & Hpos & Hcols). rewrite predict_step_eq.
    assert (Forall (λ i, i < length (preds0 s))%nat (label_indices s)) as Hpos'.
    { eapply Forall_impl; [exact Hpos|]. intros i (p & Hp & _).
      by eapply lookup_lt_Some. }
    destruct (mapM_py_index_is_Ok _ _ Hpos') as [pl Hpl]. rewrite Hpl.
    cbn [mbind result_bind]. pose proof (mapM_length _ _ _ Hpl) as Hpl_len.
    rewrite bool_decide_eq_true_2 by congruence.
    cbn [py_assert py_index lookup list_lookup mbind result_bind].
    apply (max_values_is_Ok_iff (words s)) in Hcols as [mv ->]. cbn [mbind result_bind].
    assert (is_Ok (mapM (dict_get absa_id2tag) pl)) as [tags Htags].
    { apply mapM_is_Ok_iff, Forall_forall. intros p Hp.
      apply (pred_labels_elem _ _ _ Hpl) in Hp as (i & Hi & Hp).
      rewrite Forall_forall in Hpos.
      destruct (Hpos i Hi) as (p' & Hp' & Hrange).
      assert (p' = p) as -> by congruence.
      apply Hid in Hrange as [tag Htag].
      exists tag. unfold dict_get. by rewrite Htag. }
    rewrite Htags. cbn [mbind result_bind].
    unfold assemble_aspects. rewrite assemble_loop.
    + cbn [mbind result_bind]. rewrite gold_words_eq. by eexists.
    + eapply Forall_impl; [apply tag2ts_in_bounds|]. intros t.
      unfold span_in_bounds.
      rewrite (convert_tags_length _ _ _ ot2bieos_ts_length bio2ot_ts_length).
      apply mapM_length in Htags. lia.
Qed.

(** X8. With transducers that keep the length of the tag sequence and
    give spans in bounds, and without CRF, [predict] returns a result
    exactly when the schema is supported and every sentence of the batch
    has as many label positions as tokens, a predicted id of the
    vocabulary at each label position and a score matrix of more than
    two columns.  A sentence that passes the assertion with a matrix of
    at most two columns makes [predict] raise [ValueError], also when it
    has a single word and no row is scored. *)
Theorem predict_returns_iff (batch : list Sentence) :
  (is_Ok (predict batch)
   ↔ ∃ vocab, absa_label_vocab tagging_schema = Ok vocab
              ∧ Forall (processable (length vocab)) batch)
  ∧ (∀ pre s post,
       batch = pre ++ s :: post → is_Ok (predict pre) →
       length (words s) = length (label_indices s) →
       Forall (λ i, i < length (preds0 s))%nat (label_indices s) →
       ¬ Forall (λ row, 2 < length row)%nat (logits0 s) →
       predict batch = Raise ValueError).
Proof.
  split; [|intros pre s post -> [r Hpre] Hlen Hpos Hcols;
    rewrite predict_eq in Hpre |- *;
    apply bind_Ok in Hpre as (vocab & Hvocab & Hpre);
    apply bind_Ok in Hpre as (id2tag & Hbuild & Hpre);
    apply bind_Ok in Hpre as (acc & Hacc & _);
    rewrite Hvocab; cbn [mbind result_bind];
    rewrite Hbuild; cbn [mbind result_bind];
    rewrite (for_each_raise_at _ pre post s _ acc ValueError); [done..|];
    rewrite predict_step_eq;
    destruct (mapM_py_index_is_Ok _ _ Hpos) as [pl Hpl]; rewrite Hpl;
    cbn [mbind result_bind]; apply mapM_length in Hpl;
    rewrite bool_decide_eq_true_2 by congruence;
    cbn [py_assert py_index lookup list_lookup mbind result_bind];
    by rewrite (max_values_ValueError _ _ Hcols)].
  split.
  - intros [r Hr]. rewrite predict_eq in Hr.
    apply bind_Ok in Hr as (vocab & Hvocab & Hr).
    apply bind_Ok in Hr as (id2tag & Hbuild & Hr).
    apply bind_Ok in Hr as (acc & Hloop & _).
    exists vocab. split; [done|].
    pose proof (λ p, id2tag_domain _ _ _ p Hvocab Hbuild) as Hid.
    clear Hvocab Hbuild. revert Hloop. generalize Accum_init.
    induction batch as [|s batch IH]; intros acc0 Hloop; [constructor|].
    cbn [for_each] in Hloop. apply bind_Ok in Hloop as (acc1 & Hstep & Hloop).
    constructor; [|by eapply IH].
    apply (predict_step_processable _ id2tag acc0 s Hid). by exists acc1.
  - intros (vocab & Hvocab & Hall).
    assert (supported tagging_schema) as Hs.
    { destruct (decide (supported tagging_schema)) as [|Hn]; [done|].
      by rewrite (unsupported_vocab _ Hn) in Hvocab. }
    apply supported_registry in Hs as (vocab' & id2tag & Hvocab' & Hbuild).
    assert (vocab' = vocab) as -> by congruence.
    pose proof (λ p, id2tag_domain _ _ _ p Hvocab Hbuild) as Hid.
    rewrite predict_eq, Hvocab. cbn [mbind result_bind].
    rewrite Hbuild. cbn [mbind result_bind].
    assert (∀ acc0, is_Ok (for_each (predict_step id2tag) batch acc0)) as Hloop.
    { induction Hall as [|s batch Hs _ IH]; intros acc0; [by eexists|].
      cbn [for_each].
      destruct (proj2 (predict_step_processable _ id2tag acc0 s Hid) Hs)
        as [acc1 ->].
      apply IH. }
    destruct (Hloop Accum_init) as [acc Hacc]. rewrite Hacc.
    cbn [mbind result_bind].
    destruct (predict_loop_unique _ _ _ _ _ _ _ _ Hacc) as [_ Hbound].
    rewrite (unique_results_Ok _ _ Hbound). by eexists.
Qed.

End predict_outcome.

Lemma foreign_label_raises_KeyError_witness :
  predict_absa "OT" false ([sentence_ex] ++ sentence_foreign :: [sentence_ex])
  = Raise KeyError.
Proof.
  eapply (foreign_label_raises_KeyError _ _ _ "OT" _ [sentence_ex]
            [sentence_ex] sentence_foreign 1%nat 13%Z).
  - reflexivity.
  - eexists. by vm_compute.
  - reflexivity.
  - repeat constructor.
  - repeat constructor.
  - apply elem_of_cons. by left.
  - reflexivity.
  - cbn. lia.
Defined.

Lemma predict_returns_iff_witness :
  is_Ok (predict_absa "BIEOS" false [sentence_ex; sentence_plain])
  ∧ predict_absa "BIEOS" false [sentence_ex; sentence_solo] = Raise ValueError.
Proof.
  split.
  - apply (proj1 (predict_returns_iff seq_utils.ot2bieos_ts seq_utils.bio2ot_ts
             seq_utils.tag2ts "BIEOS"
             (ot2bieos_from_length None) bio2ot_ts_length tag2ts_in_bounds
             [sentence_ex; sentence_plain])).
    eexists. split; [reflexivity|].
    repeat constructor; cbn; by eexists.
  - apply (proj2 (predict_returns_iff seq_utils.ot2bieos_ts seq_utils.bio2ot_ts
             seq_utils.tag2ts "BIEOS"
             (ot2bieos_from_length None) bio2ot_ts_length tag2ts_in_bounds
             [sentence_ex; sentence_solo]) [sentence_ex] sentence_solo []).
    + reflexivity.
    + eexists. by vm_compute.
    + reflexivity.
    + repeat constructor.
    + intros [Hrow _]%Forall_cons. cbn in Hrow. lia.
Defined.

(** ** What the gold aligner reads *)

Lemma gold_positions_ext (words : list string) (labels1 labels2 : list Z) :
  (∀ i, (1 ≤ i < length words)%nat → labels1 !! i = labels2 !! i) →
  gold_positions words labels1 = gold_positions words labels2.
Proof.
  intros H. unfold gold_positions. apply List.filter_ext_in.
  intros i [Hi1 Hi2]%in_seq. rewrite H by lia. done.
Qed.

Lemma gold_words_ext (words : list string) (labels1 labels2 : list Z) :
  (∀ i, (1 ≤ i < length words)%nat → labels1 !! i = labels2 !! i) →
  gold_words words labels1 = gold_words words labels2.
Proof.
  intros H. rewrite !gold_words_eq. unfold aligned_gold_words.
  by rewrite (gold_positions_ext _ _ _ H).
Qed.

Lemma words_before_seq (words : list string) :
  (λ i, words !!! (i - 1)%nat) <$> seq 1 (length words - 1)
  = take (length words - 1) words.
Proof.
  apply list_eq. intros j. rewrite list_lookup_fmap.
  destruct (decide (j < length words - 1)%nat) as [Hj|Hj].
  - rewrite lookup_seq_lt, lookup_take_lt by lia. cbn.
    destruct (lookup_lt_is_Some_2 words j) as [w Hw]; [lia|].
    rewrite Hw. f_equal. apply list_lookup_total_correct.
    rewrite <- Hw. f_equal. lia.
  - by rewrite lookup_seq_ge, lookup_take_ge by lia.
Qed.

(** X9. The gold aligner reads only the label ids at the positions
    [1 .. len(words)-1]: the id at position 0 and the ids from
    [len(words)] on (the padding of the label row) change nothing.  Its
    result is a subsequence of the tokens without the last one, so it has
    at most [len(words) - 1] words, and it is empty when no id at these
    positions exceeds 1. *)
Theorem gold_words_frame (words : list string) (labels0 : list Z) :
  gold_words words labels0 = gold_words words (take (length words) labels0)
  ∧ (∀ a b rest, gold_words words (a :: rest) = gold_words words (b :: rest))
  ∧ (∃ out, gold_words words labels0 = Ok out
            ∧ out `sublist_of` take (length words - 1) words
            ∧ (length out ≤ length words - 1)%nat)
  ∧ ((∀ i a, (1 ≤ i < length words)%nat → labels0 !! i = Some a → (a ≤ 1)%Z) →
     gold_words words labels0 = Ok []).
Proof.
  split_and!.
  - apply gold_words_ext. intros i Hi. by rewrite lookup_take_lt by lia.
  - intros a b rest. apply gold_words_ext. intros [|i] Hi; [exfalso; lia|done].
  - assert (aligned_gold_words words labels0
            `sublist_of` take (length words - 1) words) as Hsub.
    { rewrite <- words_before_seq. apply sublist_fmap_2, List_filter_sublist. }
    eexists. split; [apply gold_words_eq|]. split; [done|].
    apply sublist_length in Hsub. rewrite length_take in Hsub. lia.
  - intros Hle. rewrite gold_words_eq. unfold aligned_gold_words, gold_positions.
    rewrite filter_none; [done|]. intros i [Hi1 Hi2]%in_seq.
    destruct (labels0 !! i) as [a|] eqn:Ha; [|done].
    apply bool_decide_eq_false_2. specialize (Hle i a ltac:(lia) Ha). lia.
Qed.

(** ** Spans the assembly accepts *)

Lemma py_slice_head_usable (words : list string) (b e : Z) :
  (0 ≤ b)%Z → (0 ≤ e)%Z → span_usable words (b, e, "") →
  py_slice words b (e + 1) !! 0%nat = words !! Z.to_nat b
  ∧ is_Some (words !! Z.to_nat b).
Proof.
  intros Hb He [Hlt Hle]. cbn in Hlt, Hle. unfold py_slice, slice_bound.
  rewrite (proj2 (Z.ltb_ge b 0)), (proj2 (Z.ltb_ge (e + 1) 0)) by lia.
  rewrite (Z.min_l b) by lia. split.
  - rewrite lookup_take_lt by lia. rewrite lookup_drop. f_equal. lia.
  - apply lookup_lt_is_Some_2. lia.
Qed.

Lemma py_slice_head_unusable (words : list string) (b e : Z) :
  (0 ≤ b)%Z → (0 ≤ e)%Z → ¬ span_usable words (b, e, "") →
  py_slice words b (e + 1) !! 0%nat = None.
Proof.
  intros Hb He Hn. unfold span_usable in Hn. cbn in Hn.
  unfold py_slice, slice_bound.
  rewrite (proj2 (Z.ltb_ge b 0)), (proj2 (Z.ltb_ge (e + 1) 0)) by lia.
  destruct (decide (b < Z.of_nat (length words))%Z) as [Hlt|Hge].
  - rewrite lookup_take_ge; [done|]. lia.
  - apply lookup_ge_None_2. rewrite length_take, length_drop. lia.
Qed.

Lemma aspect_step_nonneg (words : list string)
    (acc : list Aspect_With_Sentiment) (t : Z * Z * string) :
  (0 ≤ t.1.1)%Z → (0 ≤ t.1.2)%Z →
  aspect_step words acc t
  = if decide (span_usable words t) then Ok (acc ++ [aspect_of words t])
    else Raise IndexError.
Proof.
  destruct t as [[b e] p]. cbn. intros Hb He. unfold aspect_step, py_index.
  case_decide as Hu.
  - destruct (py_slice_head_usable words b e Hb He Hu) as [-> [w Hw]].
    rewrite Hw. cbn. unfold aspect_of. cbn.
    by rewrite (list_lookup_total_correct _ _ _ Hw).
  - by rewrite (py_slice_head_unusable words b e Hb He Hu).
Qed.

(** X10. For spans of non-negative indices the assembly of the aspects
    returns exactly when every span begins at a position of the sentence
    and not after its end; an [end] beyond the sentence is accepted as it
    is (the slice is clamped, the indices are recorded unchanged).  When
    some span begins at or after [len(words)], or after its [end], the
    assembly raises [IndexError]. *)
Theorem assemble_aspects_outcome (words : list string)
    (p_ts_sequence : list (Z * Z * string)) :
  Forall (λ t, 0 ≤ t.1.1 ∧ 0 ≤ t.1.2)%Z p_ts_sequence →
  (Forall (span_usable words) p_ts_sequence →
   assemble_aspects words p_ts_sequence
   = Ok (aspect_of words <$> p_ts_sequence))
  ∧ (¬ Forall (span_usable words) p_ts_sequence →
     assemble_aspects words p_ts_sequence = Raise IndexError).
Proof.
  intros Hnn. unfold assemble_aspects.
  assert (∀ acc,
    (Forall (span_usable words) p_ts_sequence →
     for_each (aspect_step words) p_ts_sequence acc
     = Ok (acc ++ (aspect_of words <$> p_ts_sequence)))
    ∧ (¬ Forall (span_usable words) p_ts_sequence →
       for_each (aspect_step words) p_ts_sequence acc = Raise IndexError))
    as H; [|apply (H [])].
  induction Hnn as [|t spans [Hb He] _ IH]; intros acc.
  - split; [intros _; cbn; by rewrite app_nil_r|]. intros Hn. by destruct Hn.
  - cbn [for_each]. rewrite aspect_step_nonneg by done.
    case_decide as Hu; cbn [mbind result_bind].
    + destruct (IH (acc ++ [aspect_of words t])) as [IHok IHraise]. split.
      * intros [_ Hall]%Forall_cons. rewrite IHok by done.
        cbn. by rewrite <- app_assoc.
      * intros Hn. apply IHraise. intros Hall. apply Hn. by constructor.
    + split; [|done]. by intros [? _]%Forall_cons.
Qed.

Lemma assemble_aspects_outcome_witness :
  assemble_aspects ["great"; "food"; "today"] [(1, 7, "POS"); (3, 3, "NEG")]%Z
  = Raise IndexError.
Proof.
  apply assemble_aspects_outcome.
  - repeat constructor; cbn; lia.
  - intros [_ [[Hlt _] _]%Forall_cons]%Forall_cons. cbn in Hlt. lia.
Defined.

(** ** Splitting a text into words *)

Lemma py_split_cons (sep : ascii) (s : string) :
  ∃ w ws, py_split sep s = w :: ws.
Proof.
  destruct s as [|c s]; cbn; [by eexists _, _|].
  case_decide; [by eexists _, _|]. destruct (py_split sep s); by eexists _, _.
Qed.

Lemma py_join_cons_char (sep : string) (c : ascii) (w : string)
    (ws : list string) :
  py_join sep (String c w :: ws) = String c (py_join sep (w :: ws)).
Proof. by destruct ws. Qed.

Lemma py_join_cons_cons (sep w1 w2 : string) (ws : list string) :
  py_join sep (w1 :: w2 :: ws) = w1 +:+ sep +:+ py_join sep (w2 :: ws).
Proof. reflexivity. Qed.

Lemma py_join_split (sep : ascii) (s : string) :
  py_join (String sep "") (py_split sep s) = s.
Proof.
  induction s as [|c s IH]; [done|]. cbn [py_split].
  destruct (py_split_cons sep s) as (w & ws & Hs). rewrite Hs in IH |- *.
  case_decide as Hc.
  - subst c. by rewrite py_join_cons_cons, IH.
  - by rewrite py_join_cons_char, IH.
Qed.

Lemma py_split_length (sep : ascii) (s : string) :
  length (py_split sep s) = S (length (filter (λ c, c = sep) (chars s))).
Proof.
  induction s as [|c s IH]; [done|]. cbn [py_split chars String.list_ascii_of_string].
  fold (chars s). destruct (py_split_cons sep s) as (w & ws & Hs).
  rewrite Hs in IH |- *. case_decide as Hc.
  - rewrite filter_cons_True by done. cbn. by rewrite <- IH.
  - by rewrite filter_cons_False by done.
Qed.

Lemma py_split_no_sep (sep : ascii) (s : string) :
  Forall (λ w, sep ∉ chars w) (py_split sep s).
Proof.
  induction s as [|c s IH]; cbn [py_split].
  - constructor; [apply not_elem_of_nil|constructor].
  - destruct (py_split_cons sep s) as (w & ws & Hs). rewrite Hs in IH |- *.
    apply Forall_cons in IH as [Hw Hws]. case_decide as Hc.
    + constructor; [apply not_elem_of_nil|by constructor].
    + constructor; [|done]. cbn. intros [?|?]%elem_of_cons; [done|].
      by apply Hw.
Qed.

Lemma py_split_join (sep : ascii) (ws : list string) :
  ws ≠ [] → Forall (λ w, sep ∉ chars w) ws →
  py_split sep (py_join (String sep "") ws) = ws.
Proof.
  induction ws as [|w ws IH]; [done|]. intros _ [Hw Hws]%Forall_cons.
  induction w as [|c w IHw].
  - destruct ws as [|w' ws]; [done|].
    rewrite py_join_cons_cons.
    change (py_split sep (String sep (py_join (String sep "") (w' :: ws)))
            = "" :: w' :: ws).
    cbn [py_split]. rewrite decide_True by done. by rewrite IH.
  - assert (c ≠ sep) as Hc.
    { intros ->. apply Hw. cbn. apply elem_of_cons. by left. }
    rewrite py_join_cons_char. cbn [py_split]. rewrite decide_False by done.
    rewrite IHw; [done|]. intros Hin. apply Hw. cbn. apply elem_of_cons. by right.
Qed.

(** X11. [total_words], the words of every example, loses nothing of the
    texts: joining the words of each example with single spaces (as the
    progress line of [predict] does) gives the texts back.  Every example
    gets at least one word, one more than its text has spaces (so two
    spaces in a row give an empty word), no word holds a space, and
    splitting the join of such words returns them. *)
Theorem split_words_round_trip (texts : list string) :
  py_join " " <$> total_words texts = texts
  ∧ Forall2 (λ text ws,
               length ws = S (length (filter (λ c, c = " "%char) (chars text)))
               ∧ Forall (λ w, " "%char ∉ chars w) ws)
            texts (total_words texts)
  ∧ (∀ ws, ws ≠ [] → Forall (λ w, " "%char ∉ chars w) ws →
           py_split " " (py_join " " ws) = ws).
Proof.
  unfold total_words. split_and!.
  - rewrite <- list_fmap_compose. rewrite <- (list_fmap_id texts) at 2.
    apply list_fmap_ext. intros _ text _. apply py_join_split.
  - apply Forall2_fmap_r, Forall_Forall2_diag, Forall_forall.
    intros text _. split; [apply py_split_length|apply py_split_no_sep].
  - apply py_split_join.
Qed.

(** ** The model name in the cache file name *)

Lemma string_app_nil_r (s : string) : s +:+ "" = s.
Proof.
  induction s as [|c s IH]; [done|].
  change (String c (s +:+ "") = String c s). by rewrite IH.
Qed.

Lemma string_app_assoc (s1 s2 s3 : string) :
  (s1 +:+ s2) +:+ s3 = s1 +:+ s2 +:+ s3.
Proof.
  induction s1 as [|c s1 IH]; [done|].
  change (String c ((s1 +:+ s2) +:+ s3) = String c (s1 +:+ s2 +:+ s3)).
  by rewrite IH.
Qed.

Lemma last_filter_Some {A} (P : A → Prop) `{!∀ x, Decision (P x)}
    (l : list A) (c : A) :
  last (filter P l) = Some c →
  ∃ l1 l2, l = l1 ++ c :: l2 ∧ P c ∧ Forall (λ x, ¬ P x) l2.
Proof.
  induction l as [|x l IH] using rev_ind; [done|].
  rewrite filter_app, filter_cons, filter_nil.
  destruct (decide (P x)) as [Hx|Hx].
  - rewrite last_snoc. intros [= ->]. exists l, []. by repeat split.
  - rewrite app_nil_r. intros (l1 & l2 & -> & Hc & Hl2)%IH.
    exists l1, (l2 ++ [x]). rewrite <- app_assoc. repeat split; [done|].
    apply Forall_app. split; [done|]. by constructor.
Qed.

Lemma py_split_all_empty (sep : ascii) (s : string) :
  Forall (λ w, ¬ w ≠ "") (py_split sep s) ↔ Forall (λ c, c = sep) (chars s).
Proof.
  induction s as [|c s IH]; cbn [py_split chars String.list_ascii_of_string].
  - split; [constructor|]. intros _.
    constructor; [intros H; by apply H|constructor].
  - fold (chars s). destruct (py_split_cons sep s) as (w & ws & Hs).
    rewrite Hs in IH |- *. rewrite Forall_cons. case_decide as Hc.
    + rewrite Forall_cons, <- IH. split; [by intros [_ ?]|].
      intros [_ H]. split; [intros H'; by apply H'|done].
    + rewrite Forall_cons. split; [|by intros [? _]].
      intros [Hne _]. exfalso. by apply Hne.
Qed.

(** The pieces before the last non-empty one, each followed by the
    separator. *)
Lemma py_join_app_cons (sep : string) (l1 l2 : list string) (c : string) :
  ∃ pre, py_join sep (l1 ++ c :: l2) = pre +:+ py_join sep (c :: l2)
         ∧ (pre = "" ∨ ∃ pre', pre = pre' +:+ sep).
Proof.
  induction l1 as [|a l1 (pre & IH & Hpre)].
  - exists "". split; [done|by left].
  - exists (a +:+ sep +:+ pre). split.
    + destruct l1 as [|b l1]; cbn [app] in *.
      * by rewrite py_join_cons_cons, !string_app_assoc, <- IH.
      * by rewrite py_join_cons_cons, IH, !string_app_assoc.
    + right. destruct Hpre as [->|[pre' ->]].
      * exists a. by rewrite string_app_nil_r.
      * exists (a +:+ sep +:+ pre'). by rewrite !string_app_assoc.
Qed.

Lemma py_join_trailing_empty (c : string) (l : list string) :
  Forall (λ w, ¬ w ≠ "") l →
  py_join "/" (c :: l) = c +:+ slashes (length l).
Proof.
  intros H. revert c. induction H as [|w l Hw _ IH]; intros c.
  - cbn. by rewrite string_app_nil_r.
  - assert (w = "") as -> by (by destruct (decide (w = ""))).
    by rewrite py_join_cons_cons, IH.
Qed.

(** X12. The model name put into the cache file name is the last
    non-empty piece of [model_name_or_path] between slashes: the path is
    some prefix, empty or ending in a slash, then this name, then nothing
    but slashes; the name is not empty and holds no slash.  Taking it
    raises [IndexError] exactly when the path holds nothing but slashes
    (the empty path included). *)
Theorem model_short_name_outcome (model_name_or_path : string) :
  (model_short_name model_name_or_path = Raise IndexError
   ↔ Forall (λ c, c = "/"%char) (chars model_name_or_path))
  ∧ (∀ e, model_short_name model_name_or_path = Raise e → e = IndexError)
  ∧ (∀ name, model_short_name model_name_or_path = Ok name →
       name ≠ "" ∧ ("/"%char ∉ chars name)
       ∧ ∃ pre n, model_name_or_path = pre +:+ name +:+ slashes n
                  ∧ (pre = "" ∨ ∃ pre', pre = pre' +:+ "/")).
Proof.
  unfold model_short_name, py_pop.
  destruct (last (filter (λ w, w ≠ "") (py_split "/" model_name_or_path)))
    as [name|] eqn:Hlast.
  - split_and!.
    + split; [done|]. intros Hall%py_split_all_empty.
      apply last_Some in Hlast as [l' Hl'].
      assert (name ∈ filter (λ w, w ≠ "") (py_split "/" model_name_or_path))
        as [Hne Hin]%list_elem_of_filter
        by (rewrite Hl'; apply elem_of_app; right; by apply elem_of_cons; left).
      rewrite Forall_forall in Hall. by destruct (Hall name Hin).
    + done.
    + intros name' [= <-].
      apply last_filter_Some in Hlast as (l1 & l2 & Hsplit & Hne & Hempty).
      split; [done|]. split.
      * pose proof (py_split_no_sep "/" model_name_or_path) as Hno.
        rewrite Hsplit, Forall_app, Forall_cons in Hno. by destruct Hno as (_ & ? & _).
      * destruct (py_join_app_cons "/" l1 l2 name) as (pre & Hjoin & Hpre).
        exists pre, (length l2). split; [|done].
        rewrite <- (py_join_split "/" model_name_or_path) at 1.
        by rewrite Hsplit, Hjoin, py_join_trailing_empty.
  - split_and!; [|by intros e [= <-]|done].
    split; [intros _|done]. apply py_split_all_empty.
    apply last_None in Hlast. apply Forall_forall. intros w Hw Hne.
    assert (w ∈ filter (λ w, w ≠ "") (py_split "/" model_name_or_path)) as Hin
      by (by apply list_elem_of_filter).
    rewrite Hlast in Hin. by apply elem_of_nil in Hin.
Qed.
